(** * Splash -> Webflow event sync: a shallow embedding of [index.js]

    The development follows the layout of the source file: JavaScript
    values and strings, the field mapping [mapSplashToWebflow], the Webflow
    calls ([fetchExistingSplashIds], [createWebflowEvent]) and the
    orchestrator [sync].

    Conventions of the model.
    - A JavaScript string is a [string], one [ascii] per UTF-16 code unit,
      so the model covers the code units below 256 (Latin-1).
    - A JavaScript number is an integer [Z]; [String(n)] is its decimal
      numeral.
    - An object used as a map ([fieldData]) is a [gmap string jsval]; a
      [Set] is a [gset], whose members are compared by content (the
      program only ever looks strings up in its set).
    - The HTTP calls go through an explicit [world]: the answers the two
      services give, the content of the Webflow collection, and the trace
      of the requests and pauses performed so far.  [console.log] lines
      are not part of the trace. *)

From Stdlib Require Import ZArith String Ascii DecimalString.
From Stdlib Require DecimalPos DecimalZ.
From stdpp Require Import base option list gmap sets strings.

Local Open Scope string_scope.

(* stdpp's solvers clear hypotheses that may be absent. *)
#[local] Set Warnings "-clear-no-such-hyp".

(* ------------------------------------------------------------------ *)
(** ** JavaScript values *)

Module Js.

(** The JSON values that the two services exchange with the program.
    [JUrlObj u] is the object [{ url: u }] sent for a thumbnail. *)
Inductive jsval : Type :=
| JUndefined
| JNull
| JBool (b : bool)
| JNum (n : Z)
| JStr (s : string)
| JUrlObj (url : string).

#[global] Instance jsval_eq_dec : EqDecision jsval.
Proof. solve_decision. Defined.

Definition jsval_code (v : jsval) : unit + unit + bool + Z + string + string :=
  match v with
  | JUndefined => inl (inl (inl (inl (inl tt))))
  | JNull => inl (inl (inl (inl (inr tt))))
  | JBool b => inl (inl (inl (inr b)))
  | JNum n => inl (inl (inr n))
  | JStr s => inl (inr s)
  | JUrlObj u => inr u
  end.

Definition jsval_decode (c : unit + unit + bool + Z + string + string) : jsval :=
  match c with
  | inl (inl (inl (inl (inl _)))) => JUndefined
  | inl (inl (inl (inl (inr _)))) => JNull
  | inl (inl (inl (inr b))) => JBool b
  | inl (inl (inr n)) => JNum n
  | inl (inr s) => JStr s
  | inr u => JUrlObj u
  end.

#[global] Instance jsval_countable : Countable jsval.
Proof.
  apply (inj_countable' jsval_code jsval_decode).
  intros []; reflexivity.
Defined.

(** [if (v)]: the values that count as true. *)
Definition truthy (v : jsval) : bool :=
  match v with
  | JUndefined | JNull => false
  | JBool b => b
  | JNum n => negb (n =? 0)%Z
  | JStr s => negb (String.eqb s "")
  | JUrlObj _ => true
  end.

(** [String(n)] for an integer. *)
Definition numeral (n : Z) : string := NilZero.string_of_int (Z.to_int n).

(** [String(v)]. *)
Definition String_ (v : jsval) : string :=
  match v with
  | JUndefined => "undefined"
  | JNull => "null"
  | JBool true => "true"
  | JBool false => "false"
  | JNum n => numeral n
  | JStr s => s
  | JUrlObj _ => "[object Object]"
  end.

(** [v === true]. *)
Definition strictly_true (v : jsval) : bool :=
  match v with
  | JBool true => true
  | _ => false
  end.

(** A text property of a JSON object: absent, or a string.
    [s || d] and [if (s)] treat the empty string as absent. *)
Definition or_default (s : option string) (d : string) : string :=
  match s with
  | Some t => if String.eqb t "" then d else t
  | None => d
  end.

Definition nonempty (s : string) : bool := negb (String.eqb s "").

(** *** String methods *)

Definition code (c : ascii) : N := N_of_ascii c.

Definition between (lo hi : N) (c : ascii) : bool :=
  ((lo <=? code c) && (code c <=? hi))%N.

(** One code unit of [toLowerCase]: A-Z and the capital letters of the
    Latin-1 block (all of U+00C0..U+00DE but the multiplication sign) move
    up by 32. *)
Definition lowerUnit (c : ascii) : ascii :=
  if between 65 90 c || (between 192 222 c && negb (code c =? 215)%N)
  then ascii_of_N (code c + 32)
  else c.

Fixpoint toLowerCase (s : string) : string :=
  match s with
  | EmptyString => EmptyString
  | String c r => String (lowerUnit c) (toLowerCase r)
  end.

(** The character class [[a-z0-9]]. *)
Definition alnum (c : ascii) : bool := between 97 122 c || between 48 57 c.

Definition hyphen : ascii := "-"%char.

Definition is_hyphen (c : ascii) : bool := Ascii.eqb c hyphen.

(** [s.replace(/[^a-z0-9]+/g, '-')].  The scan goes left to right;
    [in_match] tells that the previous unit was consumed by the current
    match of [[^a-z0-9]+], whose hyphen has already been written. *)
Fixpoint replaceScan (in_match : bool) (s : string) : string :=
  match s with
  | EmptyString => EmptyString
  | String c r =>
      if alnum c then String c (replaceScan false r)
      else if in_match then replaceScan true r
      else String hyphen (replaceScan true r)
  end.

Definition replaceNonAlnum (s : string) : string := replaceScan false s.

(** The alternative [-$]: a hyphen that is the last unit. *)
Fixpoint dropFinalHyphen (s : string) : string :=
  match s with
  | EmptyString => EmptyString
  | String c EmptyString => if is_hyphen c then EmptyString else s
  | String c r => String c (dropFinalHyphen r)
  end.

(** [s.replace(/^-|-$/g, '')]: the alternative [^-] can match at index 0
    only, and [-$] at the last index only, of what is left after it. *)
Definition replaceEdgeHyphens (s : string) : string :=
  match s with
  | String c r => if is_hyphen c then dropFinalHyphen r else dropFinalHyphen s
  | EmptyString => EmptyString
  end.

Fixpoint takeUnits (n : nat) (s : string) : string :=
  match n, s with
  | S k, String c r => String c (takeUnits k r)
  | _, _ => EmptyString
  end.

Fixpoint dropUnits (n : nat) (s : string) : string :=
  match n, s with
  | S k, String _ r => dropUnits k r
  | _, _ => s
  end.

(** [s.substring(a, b)]; the two indices are swapped when [a > b]. *)
Definition substring (a b : nat) (s : string) : string :=
  takeUnits (Nat.max a b - Nat.min a b) (dropUnits (Nat.min a b) s).

(** [s.startsWith(p)]. *)
Definition startsWith (p s : string) : bool := String.prefix p s.

(** [s.replace(p, q)] for a string [s] that starts with [p]. *)
Definition replacePrefix (p q s : string) : string :=
  q ++ dropUnits (String.length p) s.

End Js.

Import Js.

(* ------------------------------------------------------------------ *)
(** ** Records of the two services *)

(** [event_type] and [event_setting] of a Splash event, read through
    [?.name] and [?.header_image]. *)
Record EventType := { name : option string }.
Record EventSetting := { header_image : option string }.

(** An event of the Splash listing, with the properties the program
    reads. *)
Record SplashEvent := {
  id : jsval;
  title : option string;
  event_start : option string;
  fq_url : option string;
  city : option string;
  state : option string;
  event_type : option EventType;
  event_setting : option EventSetting;
  published : jsval;
}.

(** A field definition of the Webflow collection schema. *)
Record Field := { slug : string }.

(** An item of the Webflow collection. *)
Record Item := {
  isArchived : bool;
  isDraft : bool;
  fieldData : option (gmap string jsval);
}.

(** What the program uses of the host's [Date]: parsing ([None] is the
    invalid date, whose [getTime()] is [NaN]) and the two renderings. *)
Class DateLib := {
  Date_parse : string -> option Z;
  toISOString : Z -> string;
  toLocaleTimeString : Z -> string;
}.

(* ------------------------------------------------------------------ *)
(** ** Field mapping *)

Section FieldMapping.
Context {D : DateLib}.

Definition defaultTitle : string := "Untitled Event".

(** The chain of string calls that builds the slug. *)
Definition slugOf (title : string) : string :=
  substring 0 100 (replaceEdgeHyphens (replaceNonAlnum (toLowerCase title))).

(** [for (const k of aliases) { if (fieldSlugs.has(k) && v) { fieldData[k] = v; break; } }] *)
Fixpoint assignFirst (aliases : list string) (fieldSlugs : gset string)
    (v : string) (fieldData : gmap string jsval) : gmap string jsval :=
  match aliases with
  | [] => fieldData
  | k :: rest =>
      if bool_decide (k ∈ fieldSlugs) && nonempty v
      then <[k := JStr v]> fieldData
      else assignFirst rest fieldSlugs v fieldData
  end.

Definition citySlugs : list string :=
  ["location-city"; "location---city"; "locationcity"].
Definition stateSlugs : list string :=
  ["location-state"; "location---state"; "location---state-2"; "locationstate"].
Definition typeSlugs : list string :=
  ["event-type"; "event-type-2"; "eventtype"; "type"].

(** [eventDate] and [eventTime]: [(None, "")] unless [event_start] is
    set and parses to a valid date. *)
Definition eventDateTime (splashEvent : SplashEvent) : option string * string :=
  if nonempty (or_default (event_start splashEvent) "") then
    match Date_parse (or_default (event_start splashEvent) "") with
    | Some t => (Some (toISOString t), toLocaleTimeString t)
    | None => (None, "")
    end
  else (None, "").

(** [imageUrl], after the upgrade of [http://]. *)
Definition imageUrlOf (splashEvent : SplashEvent) : string :=
  let imageUrl := or_default (event_setting splashEvent ≫= header_image) "" in
  if nonempty imageUrl && startsWith "http://" imageUrl
  then replacePrefix "http://" "https://" imageUrl
  else imageUrl.

Definition mapSplashToWebflow (splashEvent : SplashEvent)
    (fieldSlugs : gset string) : gmap string jsval :=
  let title := or_default (title splashEvent) defaultTitle in
  let slug := slugOf title in
  let '(eventDate, eventTime) := eventDateTime splashEvent in
  let fieldData : gmap string jsval :=
    <["slug" := JStr slug]> (<["name" := JStr title]> ∅) in
  let fieldData :=
    if bool_decide ("splash-id" ∈ fieldSlugs)
    then <["splash-id" := JStr (String_ (id splashEvent))]> fieldData
    else fieldData in
  let fieldData :=
    if bool_decide ("splash-url" ∈ fieldSlugs)
       && nonempty (or_default (fq_url splashEvent) "")
    then <["splash-url" := JStr (or_default (fq_url splashEvent) "")]> fieldData
    else fieldData in
  let fieldData :=
    if bool_decide ("date" ∈ fieldSlugs) && nonempty (or_default eventDate "")
    then <["date" := JStr (or_default eventDate "")]> fieldData
    else fieldData in
  let fieldData :=
    if bool_decide ("time" ∈ fieldSlugs) && nonempty eventTime
    then <["time" := JStr eventTime]> fieldData
    else fieldData in
  let imageUrl := imageUrlOf splashEvent in
  let fieldData :=
    if bool_decide ("thumbnail" ∈ fieldSlugs) && nonempty imageUrl
    then <["thumbnail" := JUrlObj imageUrl]> fieldData
    else fieldData in
  let city := or_default (city splashEvent) "" in
  let state := or_default (state splashEvent) "" in
  let fieldData := assignFirst citySlugs fieldSlugs city fieldData in
  let fieldData := assignFirst stateSlugs fieldSlugs state fieldData in
  let eventType := or_default (event_type splashEvent ≫= name) "" in
  assignFirst typeSlugs fieldSlugs eventType fieldData.

End FieldMapping.

(* ------------------------------------------------------------------ *)
(** ** The world of the HTTP calls *)

(** How an exchange fails: a response that is not [ok], or an exception
    of [fetch] or [json()] itself. *)
Inductive fault : Type :=
| Status (status : N) (text : string)
| Thrown (message : string).

Inductive answer (A : Type) : Type :=
| Answer (body : A)
| Fault (f : fault).
Arguments Answer {A} body.
Arguments Fault {A} f.

(** What the program does to the outside, in order. *)
Inductive effect : Type :=
| GetSchema
| PostToken
| GetEvents (accessToken : jsval)
| GetItems (offset limit : N)
| PostItem (body : Item)
| Pause (ms : N)
| PostSlack (events : list SplashEvent).

(** The environment of one run.  [collection] is the content of the
    Webflow collection and [listing] the way Webflow serves it for an
    offset and a limit; [create_answers] are Webflow's answers to the
    coming create calls, in order (it accepts once they are used up); an
    accepted item is stored at the end of [collection] as it was sent. *)
Record world := {
  env : gmap string string;
  schema_answer : answer (option (list Field));
  token_answer : answer jsval;
  events_answer : answer (list SplashEvent);
  collection : list Item;
  listing : list Item -> N -> N -> answer (option (list Item));
  create_answers : list (answer unit);
  trace : list effect;
}.

(** A Webflow that serves the whole collection in offset/limit pages. *)
Definition pagedListing (items : list Item) (offset limit : N)
  : answer (option (list Item)) :=
  Answer (Some (take (N.to_nat limit) (drop (N.to_nat offset) items))).

(** The world after the effects [es] have been added to its trace. *)
Definition emits (es : list effect) (w : world) : world :=
  {| env := env w; schema_answer := schema_answer w;
     token_answer := token_answer w; events_answer := events_answer w;
     collection := collection w; listing := listing w;
     create_answers := create_answers w; trace := trace w ++ es |}.

Definition emit (e : effect) (w : world) : world := emits [e] w.

(** The create call is answered: the head of [create_answers] is used up
    and, when Webflow accepts, the item is stored. *)
Definition answerCreate (stored : list Item) (w : world) : world :=
  {| env := env w; schema_answer := schema_answer w;
     token_answer := token_answer w; events_answer := events_answer w;
     collection := collection w ++ stored; listing := listing w;
     create_answers := tail (create_answers w); trace := trace w |}.

(** *** Asynchronous code that may throw

    A computation reads and changes the world and either returns, throws
    an [Error] with a message, or ([None]) has not finished within the
    fuel given to its [while (true)] loop. *)
Inductive outcome (A : Type) : Type :=
| Ret (a : A)
| Throw (message : string).
Arguments Ret {A} a.
Arguments Throw {A} message.

Definition M (A : Type) : Type := world -> option (outcome A * world).

Definition ret {A} (a : A) : M A := fun w => Some (Ret a, w).
Definition throw {A} (message : string) : M A := fun w => Some (Throw message, w).
Definition bind {A B} (c : M A) (k : A -> M B) : M B :=
  fun w =>
    match c w with
    | Some (Ret a, w') => k a w'
    | Some (Throw m, w') => Some (Throw m, w')
    | None => None
    end.
(** [try { c } catch (error) { handler(error.message) }] *)
Definition tryCatch {A} (c : M A) (handler : string -> M A) : M A :=
  fun w =>
    match c w with
    | Some (Throw m, w') => handler m w'
    | r => r
    end.
Definition perform (e : effect) : M unit := fun w => Some (Ret tt, emit e w).

Notation "'let*' x ':=' c 'in' k" := (bind c (fun x => k))
  (at level 10, x pattern, c at level 100, k at level 200).
Notation "c ';;' k" := (bind c (fun _ => k))
  (at level 100, k at level 200, right associativity).

(** [throw new Error(`${prefix}${response.status} - ${text}`)], or the
    exception of the call itself. *)
Definition failure (prefix : string) (f : fault) : string :=
  match f with
  | Status status text => prefix ++ numeral (Z.of_N status) ++ " - " ++ text
  | Thrown message => message
  end.

(** The body of a call, or its failure thrown. *)
Definition expect {A} (prefix : string) (a : answer A) : M A :=
  match a with
  | Answer body => ret body
  | Fault f => throw (failure prefix f)
  end.

(* ------------------------------------------------------------------ *)
(** ** Slack, Splash and Webflow calls *)

Definition envSet (w : world) (key : string) : bool :=
  nonempty (or_default (env w !! key) "").

(** The notification is skipped without a webhook; its own failures are
    caught inside, so it never throws. *)
Definition sendSlackNotification (events : list SplashEvent) : M unit :=
  fun w =>
    if envSet w "SLACK_WEBHOOK_URL" then perform (PostSlack events) w
    else ret tt w.

Definition getSplashAccessToken : M jsval :=
  perform PostToken;;
  fun w => expect "Splash auth failed: " (token_answer w) w.

Definition fetchSplashEvents (accessToken : jsval) : M (list SplashEvent) :=
  perform (GetEvents accessToken);;
  fun w => expect "Splash events fetch failed: " (events_answer w) w.

Definition fetchCollectionSchema : M (list Field) :=
  perform GetSchema;;
  let* data := fun w => expect "Webflow schema fetch failed: " (schema_answer w) w in
  ret (default [] data).

Definition limit : N := 100.

(** [item.fieldData?.['splash-id']] *)
Definition splashIdOf (item : Item) : jsval :=
  default JUndefined (fieldData item ≫= fun fd => fd !! "splash-id").

(** One turn of [for (const item of items)]. *)
Definition addSplashId (existingIds : gset jsval) (item : Item) : gset jsval :=
  if truthy (splashIdOf item) then existingIds ∪ {[ splashIdOf item ]}
  else existingIds.

(** The [while (true)] loop, from the current [offset] and [existingIds]. *)
Fixpoint scanItems (fuel : nat) (offset : N) (existingIds : gset jsval)
  : M (gset jsval) :=
  match fuel with
  | O => fun _ => None
  | S fuel' =>
      perform (GetItems offset limit);;
      let* data :=
        fun w => expect "Webflow fetch failed: "
                   (listing w (collection w) offset limit) w in
      let items := default [] data in
      let existingIds := foldl addSplashId existingIds items in
      if (N.of_nat (length items) <? limit)%N then ret existingIds
      else scanItems fuel' (offset + limit)%N existingIds
  end.

Definition fetchExistingSplashIds (fuel : nat) : M (gset jsval) :=
  scanItems fuel 0%N ∅.

(** The JSON body of the create call. *)
Definition draftOf (eventData : gmap string jsval) : Item :=
  {| isArchived := false; isDraft := true; fieldData := Some eventData |}.

Definition createWebflowEvent (eventData : gmap string jsval) : M unit :=
  perform (PostItem (draftOf eventData));;
  fun w =>
    match create_answers w with
    | Fault f :: _ =>
        throw (failure "Webflow create failed: " f) (answerCreate [] w)
    | _ => ret tt (answerCreate [draftOf eventData] w)
    end.

(* ------------------------------------------------------------------ *)
(** ** Main sync *)

(** The object that [sync] returns; the early return has no [errors]
    property. *)
Record SyncResult := {
  synced : nat;
  errors : option (list (jsval * string));
  total : nat;
}.

(** [synced], [syncedEvents] and [errors] of the write loop. *)
Record Progress := {
  p_synced : nat;
  p_syncedEvents : list SplashEvent;
  p_errors : list (jsval * string);
}.

Definition required : list string :=
  ["SPLASH_CLIENT_ID"; "SPLASH_CLIENT_SECRET"; "SPLASH_USERNAME";
   "SPLASH_PASSWORD"; "WEBFLOW_API_TOKEN"].

Section Sync.
Context {D : DateLib}.

(** [for (const event of newEvents) { try { ... } catch (error) { ... } }] *)
Fixpoint writeLoop (newEvents : list SplashEvent) (fieldSlugs : gset string)
    (p : Progress) : M Progress :=
  match newEvents with
  | [] => ret p
  | event :: rest =>
      let* p' :=
        tryCatch
          (let fieldData := mapSplashToWebflow event fieldSlugs in
           createWebflowEvent fieldData;;
           let p1 := {| p_synced := S (p_synced p);
                        p_syncedEvents := p_syncedEvents p ++ [event];
                        p_errors := p_errors p |} in
           perform (Pause 1100);;
           ret p1)
          (fun message =>
             ret {| p_synced := p_synced p;
                    p_syncedEvents := p_syncedEvents p;
                    p_errors := p_errors p ++ [(id event, message)] |}) in
      writeLoop rest fieldSlugs p'
  end.

Definition isPublished (event : SplashEvent) : bool :=
  strictly_true (published event).

Definition isNew (existingIds : gset jsval) (event : SplashEvent) : bool :=
  negb (bool_decide (JStr (String_ (id event)) ∈ existingIds)).

Definition sync (fuel : nat) : M SyncResult :=
  let* missing := fun w => ret (List.filter (fun key => negb (envSet w key)) required) w in
  if (0 <? length missing)%nat
  then throw ("Missing required env vars: " ++ String.concat ", " missing)
  else
    let* fields := fetchCollectionSchema in
    let fieldSlugs : gset string := list_to_set (map slug fields) in
    let* accessToken := getSplashAccessToken in
    let* allSplashEvents := fetchSplashEvents accessToken in
    let splashEvents := List.filter isPublished allSplashEvents in
    let* existingIds := fetchExistingSplashIds fuel in
    let newEvents := List.filter (isNew existingIds) splashEvents in
    if (length newEvents =? 0)%nat
    then ret {| synced := 0; errors := None; total := length splashEvents |}
    else
      let* p := writeLoop newEvents fieldSlugs
                  {| p_synced := 0; p_syncedEvents := []; p_errors := [] |} in
      (if (0 <? length (p_syncedEvents p))%nat
       then sendSlackNotification (p_syncedEvents p)
       else ret tt);;
      ret {| synced := p_synced p; errors := Some (p_errors p);
             total := length splashEvents |}.

End Sync.

(* ------------------------------------------------------------------ *)
(** ** The slug rule as the specification words it

    These definitions follow the sentence of the specification, not the
    code: lower-case the title, replace every maximal run of characters
    outside [[a-z0-9]] with a single hyphen, strip leading and trailing
    hyphens, truncate to 100 characters. *)

Module SlugRule.

(** The maximal runs of a string: the blocks of consecutive units that
    are all inside, or all outside, [[a-z0-9]]. *)
Fixpoint runs (s : string) : list (bool * string) :=
  match s with
  | EmptyString => []
  | String c r =>
      match runs r with
      | (inside, block) :: others =>
          if Bool.eqb inside (alnum c)
          then (inside, String c block) :: others
          else (alnum c, String c EmptyString) :: (inside, block) :: others
      | [] => [(alnum c, String c EmptyString)]
      end
  end.

Definition hyphenateRun (run : bool * string) : string :=
  if fst run then snd run else "-".

Definition hyphenateRuns (s : string) : string :=
  foldr String.append "" (map hyphenateRun (runs s)).

Fixpoint stripLeading (s : string) : string :=
  match s with
  | String c r => if is_hyphen c then stripLeading r else s
  | EmptyString => EmptyString
  end.

(** All the hyphens at the end go: a hyphen in front of nothing but
    stripped hyphens is stripped too. *)
Fixpoint stripTrailing (s : string) : string :=
  match s with
  | EmptyString => EmptyString
  | String c r =>
      match stripTrailing r with
      | EmptyString => if is_hyphen c then EmptyString else String c EmptyString
      | kept => String c kept
      end
  end.

Definition truncate (n : nat) (s : string) : string := String.substring 0 n s.

Definition slug_rule (title : string) : string :=
  truncate 100 (stripTrailing (stripLeading (hyphenateRuns (toLowerCase title)))).

End SlugRule.

(* ------------------------------------------------------------------ *)
(** ** Notions used in the statements and proofs *)

(** An event with its title replaced. *)
Definition setTitle (t : option string) (event : SplashEvent) : SplashEvent :=
  {| id := id event; title := t; event_start := event_start event;
     fq_url := fq_url event; city := city event; state := state event;
     event_type := event_type event; event_setting := event_setting event;
     published := published event |}.

(** What a string starts with. *)
Definition startsHyphen (s : string) : bool :=
  match s with
  | String c _ => is_hyphen c
  | EmptyString => false
  end.

(** No two hyphens in a row. *)
Fixpoint sparse (s : string) : Prop :=
  match s with
  | EmptyString => True
  | String c r => (is_hyphen c = true -> startsHyphen r = false) /\ sparse r
  end.

(** No unit of the string is in [[a-z0-9]]. *)
Fixpoint noAlnum (s : string) : bool :=
  match s with
  | EmptyString => true
  | String c r => negb (alnum c) && noAlnum r
  end.

(** The dedup index of a collection: the truthy [splash-id] values. *)
Definition idsOf (items : list Item) : gset jsval := foldl addSplashId ∅ items.

(** The offsets of the pages [first], [first + 1], ..., [first + count - 1]. *)
Definition pageRequests (first count : nat) : list effect :=
  map (fun i => GetItems (N.of_nat (i * 100)) limit) (seq first count).

(** The page of a paged collection at an offset. *)
Definition pageAt (items : list Item) (offset : nat) : list Item :=
  take 100 (drop offset items).

(** The bodies of the create calls of a trace, in order. *)
Definition posted (es : list effect) : list Item :=
  omap (fun e => match e with PostItem body => Some body | _ => None end) es.

(** The events of the write loop whose create call Webflow accepts, and
    the [errors] entries of the others, for the answers Webflow gives to
    the calls in order. *)
Fixpoint acceptedOf (newEvents : list SplashEvent) (answers : list (answer unit))
  : list SplashEvent :=
  match newEvents with
  | [] => []
  | event :: rest =>
      match answers with
      | Fault _ :: _ => acceptedOf rest (tail answers)
      | _ => event :: acceptedOf rest (tail answers)
      end
  end.

Fixpoint failuresOf (newEvents : list SplashEvent) (answers : list (answer unit))
  : list (jsval * string) :=
  match newEvents with
  | [] => []
  | event :: rest =>
      match answers with
      | Fault f :: _ =>
          (id event, failure "Webflow create failed: " f)
            :: failuresOf rest (tail answers)
      | _ => failuresOf rest (tail answers)
      end
  end.

Section LoopTrace.
Context {D : DateLib}.

(** The create call of an event. *)
Definition attemptOf (fieldSlugs : gset string) (event : SplashEvent) : Item :=
  draftOf (mapSplashToWebflow event fieldSlugs).

(** What the write loop does to the outside. *)
Fixpoint writeTrace (newEvents : list SplashEvent) (fieldSlugs : gset string)
    (answers : list (answer unit)) : list effect :=
  match newEvents with
  | [] => []
  | event :: rest =>
      match answers with
      | Fault _ :: _ =>
          PostItem (attemptOf fieldSlugs event)
            :: writeTrace rest fieldSlugs (tail answers)
      | _ =>
          PostItem (attemptOf fieldSlugs event) :: Pause 1100
            :: writeTrace rest fieldSlugs (tail answers)
      end
  end.

End LoopTrace.

(** The world after the write loop: the accepted items are stored, the
    answers are used up, the trace has grown. *)
Definition written (stored : list Item) (used : nat) (es : list effect)
    (w : world) : world :=
  {| env := env w; schema_answer := schema_answer w;
     token_answer := token_answer w; events_answer := events_answer w;
     collection := collection w ++ stored; listing := listing w;
     create_answers := drop used (create_answers w); trace := trace w ++ es |}.

(** The three reads that come before the dedup scan. *)
Definition readsOf (accessToken : jsval) : list effect :=
  [GetSchema; PostToken; GetEvents accessToken].

(** The world after the Slack notification of a write loop that created
    [created]. *)
Definition notified (created : list SplashEvent) (w : world) : world :=
  if (0 <? length created)%nat && envSet w "SLACK_WEBHOOK_URL"
  then emit (PostSlack created) w
  else w.

(** All the required variables are set. *)
Definition envReady (w : world) : Prop :=
  Forall (fun key => envSet w key = true) required.

(** The events a run attempts to create, as the diff rule words it: the
    publication flag is exactly [true] and the string form of the
    identifier is not in the dedup index. *)
Definition attempted (existingIds : gset jsval) (events : list SplashEvent)
  : list SplashEvent :=
  List.filter
    (fun event =>
       strictly_true (published event)
       && negb (bool_decide (JStr (String_ (id event)) ∈ existingIds)))
    events.

(** The field slugs of a schema answer. *)
Definition slugsOf (fields : option (list Field)) : gset string :=
  list_to_set (map slug (default [] fields)).

(* ------------------------------------------------------------------ *)
(** ** Events and worlds of the examples *)

(** For an event without [event_start] the mapping never calls [Date];
    the examples, whose events have none, run on this host. *)
Definition noStart : DateLib :=
  {| Date_parse := fun _ => None;
     toISOString := fun _ => "";
     toLocaleTimeString := fun _ => "" |}.

(** A published event that has an identifier and a title only. *)
Definition plainEvent (n : Z) (t : string) : SplashEvent :=
  {| id := JNum n; title := Some t; event_start := None; fq_url := None;
     city := None; state := None; event_type := None; event_setting := None;
     published := JBool true |}.

(** A Webflow collection of 250 items, served in pages. *)
Definition world250 : world :=
  {| env := ∅;
     schema_answer := Answer None;
     token_answer := Answer JUndefined;
     events_answer := Answer [];
     collection := replicate 250 (draftOf {[ "splash-id" := JStr "7" ]});
     listing := pagedListing;
     create_answers := [];
     trace := [] |}.

(** A world in which every required variable is set, no Slack webhook is
    configured, the three reads answer, and Webflow serves its collection
    in pages. *)
Definition worldOf (fieldSlugs : list string) (events : list SplashEvent)
    (items : list Item) (answers : list (answer unit)) : world :=
  {| env := list_to_map (map (fun key => (key, "set")) required);
     schema_answer := Answer (Some (map (fun s => {| slug := s |}) fieldSlugs));
     token_answer := Answer (JStr "token");
     events_answer := Answer events;
     collection := items;
     listing := pagedListing;
     create_answers := answers;
     trace := [] |}.

(** The scenario of the specification: three published events 1, 2, 3, of
    which 2 is in the collection already. *)
Definition event1 : SplashEvent := plainEvent 1 "One".
Definition event2 : SplashEvent := plainEvent 2 "Two".
Definition event3 : SplashEvent := plainEvent 3 "Three".
Definition unpublishedEvent : SplashEvent :=
  {| id := JNum 4; title := Some "Template"; event_start := None;
     fq_url := None; city := None; state := None; event_type := None;
     event_setting := None; published := JBool false |}.

Definition schema3 : list string := ["name"; "slug"; "splash-id"].

Definition scenarioWorld : world :=
  worldOf schema3 [event1; event2; unpublishedEvent; event3]
    [draftOf {[ "splash-id" := JStr "2" ]}] [].

(** Three new events, the create call of the second one refused. *)
Definition refusalWorld : world :=
  worldOf schema3 [event1; event2; event3] []
    [Answer tt; Fault (Status 429 "Too Many Requests"); Answer tt].

(** Two new events, the create call of the first one refused. *)
Definition firstRefusedWorld : world :=
  worldOf schema3 [event1; event2] [] [Fault (Status 429 "Too Many Requests")].

(** Nothing new: the only event is in the collection already. *)
Definition syncedWorld : world :=
  worldOf schema3 [event2] [draftOf {[ "splash-id" := JStr "2" ]}] [].

(** A collection whose schema has no 'splash-id' field. *)
Definition noIdFieldWorld : world :=
  worldOf ["name"; "slug"] [event1] [] [].

(** The world that the run on [scenarioWorld] leaves behind. *)
Definition scenarioAfter : world :=
  written (map (attemptOf (D := noStart) (list_to_set schema3)) [event1; event3])
    2
    (writeTrace (D := noStart) [event1; event3] (list_to_set schema3) [])
    (emits [GetItems 0 100] (emits (readsOf (JStr "token")) scenarioWorld)).

(** The worlds that the runs on [firstRefusedWorld] and [syncedWorld]
    leave behind. *)
Definition firstRefusedAfter : world :=
  written [attemptOf (D := noStart) (list_to_set schema3) event2]
    2
    [PostItem (attemptOf (D := noStart) (list_to_set schema3) event1);
     PostItem (attemptOf (D := noStart) (list_to_set schema3) event2);
     Pause 1100]
    (emits [GetItems 0 100] (emits (readsOf (JStr "token")) firstRefusedWorld)).

Definition syncedAfter : world :=
  emits [GetItems 0 100] (emits (readsOf (JStr "token")) syncedWorld).

(** The run on [noIdFieldWorld] creates one item, and the next run, on
    the world it leaves behind, creates it again. *)
Definition noIdFieldAfter : world :=
  written [attemptOf (D := noStart) (list_to_set ["name"; "slug"]) event1]
    1
    [PostItem (attemptOf (D := noStart) (list_to_set ["name"; "slug"]) event1);
     Pause 1100]
    (emits [GetItems 0 100] (emits (readsOf (JStr "token")) noIdFieldWorld)).

Definition noIdFieldAfter2 : world :=
  written [attemptOf (D := noStart) (list_to_set ["name"; "slug"]) event1]
    1
    [PostItem (attemptOf (D := noStart) (list_to_set ["name"; "slug"]) event1);
     Pause 1100]
    (emits [GetItems 0 100] (emits (readsOf (JStr "token")) noIdFieldAfter)).

(** The second run on the scenario of the specification. *)
Definition scenarioAfter2 : world :=
  emits [GetItems 0 100] (emits (readsOf (JStr "token")) scenarioAfter).

(* ------------------------------------------------------------------ *)
(** ** Notions used in the further properties *)

(** The units a slug is made of: [[a-z0-9]] and the hyphen. *)
Definition slugUnit (c : ascii) : bool := alnum c || is_hyphen c.

Fixpoint allUnits (p : ascii -> bool) (s : string) : bool :=
  match s with
  | EmptyString => true
  | String c r => p c && allUnits p r
  end.

(** The last unit of the string is a hyphen. *)
Fixpoint endsHyphen (s : string) : bool :=
  match s with
  | EmptyString => false
  | String c EmptyString => is_hyphen c
  | String _ r => endsHyphen r
  end.

(** [n] times the unit [c]. *)
Fixpoint unitsOf (n : nat) (c : ascii) : string :=
  match n with
  | O => EmptyString
  | S k => String c (unitsOf k c)
  end.

(** A title of 99 letters, a space and one more letter. *)
Definition longTitle : string := unitsOf 99 "a"%char ++ " b".

(** The first of the aliases that the schema has: the key the loop over
    the aliases stops at. *)
Fixpoint firstIn (aliases : list string) (fieldSlugs : gset string)
  : option string :=
  match aliases with
  | [] => None
  | k :: rest =>
      if bool_decide (k ∈ fieldSlugs) then Some k else firstIn rest fieldSlugs
  end.

(** A published event in Austin with a header image served over http
    and a start time that no host can parse. *)
Definition austinEvent : SplashEvent :=
  {| id := JNum 9; title := Some "Austin Meetup";
     event_start := Some "soon"; fq_url := Some "";
     city := Some "Austin"; state := Some "TX";
     event_type := Some {| name := Some "Meetup" |};
     event_setting := Some {| header_image := Some "http://cdn.example/a.png" |};
     published := JBool true |}.

(** A schema that spells the city field in two of the three known ways. *)
Definition driftedSchema : gset string :=
  {[ "locationcity"; "location---city"; "thumbnail"; "date"; "time";
     "splash-url" ]}.

(** The required variables that are unset or empty, in the order of
    [required]. *)
Definition missingOf (w : world) : list string :=
  List.filter (fun key => negb (envSet w key)) required.

(** The requests that only read. *)
Definition isRead (e : effect) : bool :=
  match e with
  | GetSchema | PostToken | GetEvents _ | GetItems _ _ => true
  | PostItem _ | Pause _ | PostSlack _ => false
  end.

(** The pauses and the Slack notifications of a trace, in order. *)
Definition pauses (es : list effect) : list N :=
  omap (fun e => match e with Pause ms => Some ms | _ => None end) es.

Definition slacks (es : list effect) : list (list SplashEvent) :=
  omap (fun e => match e with PostSlack events => Some events | _ => None end) es.

(** The items of the page that Webflow serves at offset [100 * i], and
    whether that page is full: answered, with [limit] items or more. *)
Definition pageItems (w : world) (i : nat) : list Item :=
  match listing w (collection w) (N.of_nat (i * 100)) limit with
  | Answer body => default [] body
  | Fault _ => []
  end.

Definition fullPage (w : world) (i : nat) : Prop :=
  exists body,
    listing w (collection w) (N.of_nat (i * 100)) limit = Answer body
    /\ 100 <= length (default [] body).


(** A Webflow that ignores the offset and serves the first page again
    and again, and one whose second page fails. *)
Definition stuckListing (items : list Item) (offset limit : N)
  : answer (option (list Item)) :=
  Answer (Some (take (N.to_nat limit) items)).

Definition flakyListing (items : list Item) (offset limit : N)
  : answer (option (list Item)) :=
  if (offset =? 100)%N then Fault (Status 500 "Internal Server Error")
  else pagedListing items offset limit.

Definition withListing
    (serve : list Item -> N -> N -> answer (option (list Item))) (w : world)
  : world :=
  {| env := env w; schema_answer := schema_answer w;
     token_answer := token_answer w; events_answer := events_answer w;
     collection := collection w; listing := serve;
     create_answers := create_answers w; trace := trace w |}.

Definition flakyWorld : world := withListing flakyListing world250.

(** A ready world whose schema request is answered 503. *)
Definition schemaDownWorld : world :=
  {| env := env scenarioWorld;
     schema_answer := Fault (Status 503 "Service Unavailable");
     token_answer := token_answer scenarioWorld;
     events_answer := events_answer scenarioWorld;
     collection := collection scenarioWorld; listing := pagedListing;
     create_answers := []; trace := [] |}.

(** A ready world with 250 items in its collection and nothing to sync. *)
Definition scenarioWorld250 : world :=
  worldOf schema3 [] (collection world250) [].

(** The same world behind a Webflow that ignores the offset. *)
Definition stuckWorld : world := withListing stuckListing scenarioWorld250.

(** The scenario of the specification with a Slack webhook configured,
    the second create call refused, and the world its run leaves behind. *)
Definition slackWorld : world :=
  {| env := <["SLACK_WEBHOOK_URL" := "https://hooks.example/T0"]> (env scenarioWorld);
     schema_answer := schema_answer scenarioWorld;
     token_answer := token_answer scenarioWorld;
     events_answer := Answer [event1; event2; unpublishedEvent; event3];
     collection := []; listing := pagedListing;
     create_answers := [Answer tt; Fault (Thrown "fetch failed")];
     trace := [] |}.

Definition slackAfter : world :=
  emits [PostSlack [event1; event3]]
    (written
       (map (attemptOf (D := noStart) (list_to_set schema3)) [event1; event3])
       3
       (writeTrace (D := noStart) [event1; event2; event3] (list_to_set schema3)
          (create_answers slackWorld))
       (emits [GetItems 0 100] (emits (readsOf (JStr "token")) slackWorld))).

(** A ready world whose schema answer has no [fields] property, with one
    new event, and the world its run leaves behind. *)
Definition noFieldsWorld : world :=
  {| env := env scenarioWorld;
     schema_answer := Answer None;
     token_answer := token_answer scenarioWorld;
     events_answer := Answer [austinEvent];
     collection := []; listing := pagedListing;
     create_answers := []; trace := [] |}.

Definition noFieldsAfter : world :=
  written [attemptOf (D := noStart) ∅ austinEvent] 1
    [PostItem (attemptOf (D := noStart) ∅ austinEvent); Pause 1100]
    (emits [GetItems 0 100] (emits (readsOf (JStr "token")) noFieldsWorld)).

(** What every body of a create call looks like. *)
Definition isDraftItem (item : Item) : Prop :=
  isDraft item = true /\ isArchived item = false
  /\ exists fd, fieldData item = Some fd
                /\ is_Some (fd !! "name") /\ is_Some (fd !! "slug").




(* ------------------------------------------------------------------ *)
(** ** The mapping of the earlier revision (src/unnamed/part_002) *)

(** An event as the earlier revision reads it: the properties above and
    [description_text]. *)
Record DescribedEvent := {
  properties : SplashEvent;
  description_text : option string;
}.

Module Earlier.
Section FieldMapping.
Context {D : DateLib}.

Definition descSlugs : list string :=
  ["description"; "description-2"; "event-description"].

(** [mapSplashToWebflow] of part_002: the loop over the description
    aliases stands between the loops for the state and for the type. *)
Definition mapSplashToWebflow (splashEvent : DescribedEvent)
    (fieldSlugs : gset string) : gmap string jsval :=
  let title := or_default (title (properties splashEvent)) defaultTitle in
  let slug := slugOf title in
  let '(eventDate, eventTime) := eventDateTime (properties splashEvent) in
  let fieldData : gmap string jsval :=
    <["slug" := JStr slug]> (<["name" := JStr title]> ∅) in
  let fieldData :=
    if bool_decide ("splash-id" ∈ fieldSlugs)
    then <["splash-id" := JStr (String_ (id (properties splashEvent)))]> fieldData
    else fieldData in
  let fieldData :=
    if bool_decide ("splash-url" ∈ fieldSlugs)
       && nonempty (or_default (fq_url (properties splashEvent)) "")
    then <["splash-url" := JStr (or_default (fq_url (properties splashEvent)) "")]>
           fieldData
    else fieldData in
  let fieldData :=
    if bool_decide ("date" ∈ fieldSlugs) && nonempty (or_default eventDate "")
    then <["date" := JStr (or_default eventDate "")]> fieldData
    else fieldData in
  let fieldData :=
    if bool_decide ("time" ∈ fieldSlugs) && nonempty eventTime
    then <["time" := JStr eventTime]> fieldData
    else fieldData in
  let imageUrl := imageUrlOf (properties splashEvent) in
  let fieldData :=
    if bool_decide ("thumbnail" ∈ fieldSlugs) && nonempty imageUrl
    then <["thumbnail" := JUrlObj imageUrl]> fieldData
    else fieldData in
  let city := or_default (city (properties splashEvent)) "" in
  let state := or_default (state (properties splashEvent)) "" in
  let fieldData := assignFirst citySlugs fieldSlugs city fieldData in
  let fieldData := assignFirst stateSlugs fieldSlugs state fieldData in
  let fieldData :=
    assignFirst descSlugs fieldSlugs
      (or_default (description_text splashEvent) "") fieldData in
  let eventType := or_default (event_type (properties splashEvent) ≫= name) "" in
  assignFirst typeSlugs fieldSlugs eventType fieldData.

End FieldMapping.
End Earlier.

(** An event with a description, and a schema with two of the
    description aliases. *)
Definition describedEvent : DescribedEvent :=
  {| properties := austinEvent; description_text := Some "Doors open at six." |}.

Definition describedSchema : gset string :=
  {[ "event-description"; "description-2"; "type"; "splash-id" ]}.

(* ================================================================== *)
(** * Properties *)

(** ** Strings *)

Section StringFacts.

Lemma is_hyphen_true c : is_hyphen c = true -> c = hyphen.
Proof. unfold is_hyphen. apply Ascii.eqb_eq. Qed.

Lemma alnum_not_hyphen c : alnum c = true -> is_hyphen c = false.
Proof.
  intros Hc. destruct (is_hyphen c) eqn:E; [|reflexivity].
  apply is_hyphen_true in E. subst c. discriminate Hc.
Qed.

Lemma takeUnits_substring n s : takeUnits n s = String.substring 0 n s.
Proof.
  revert s. induction n as [|n IH]; intros [|c s]; simpl; try reflexivity.
  by rewrite IH.
Qed.

Lemma substring_from_0 n s : substring 0 n s = SlugRule.truncate n s.
Proof.
  unfold substring, SlugRule.truncate. rewrite Nat.max_0_l, Nat.min_0_l, Nat.sub_0_r.
  simpl. destruct s; apply takeUnits_substring.
Qed.

Lemma replaceScan_start s : startsHyphen (replaceScan true s) = false.
Proof.
  induction s as [|c s IH]; simpl; [reflexivity|].
  destruct (alnum c) eqn:E; simpl; [by apply alnum_not_hyphen | exact IH].
Qed.

Lemma replaceScan_sparse b s : sparse (replaceScan b s).
Proof.
  revert b. induction s as [|c s IH]; intros b; simpl; [exact I|].
  destruct (alnum c) eqn:E.
  - simpl. split; [|apply IH]. intros Hc.
    rewrite (alnum_not_hyphen _ E) in Hc. discriminate.
  - destruct b; [apply IH|]. simpl. split; [|apply IH].
    intros _. apply replaceScan_start.
Qed.

(** *** The scan against the runs *)

Lemma runs_head c r :
  exists block others,
    SlugRule.runs (String c r) = (alnum c, String c block) :: others.
Proof.
  simpl. destruct (SlugRule.runs r) as [|[inside block] others]; [by eauto|].
  destruct (Bool.eqb inside (alnum c)) eqn:E; [|by eauto].
  apply Bool.eqb_prop in E. subst inside. eauto.
Qed.

Lemma hyphenateRuns_cons c r :
  SlugRule.hyphenateRuns (String c r) =
    if alnum c then String c (SlugRule.hyphenateRuns r)
    else match r with
         | String d _ =>
             if alnum d then String hyphen (SlugRule.hyphenateRuns r)
             else SlugRule.hyphenateRuns r
         | EmptyString => String hyphen EmptyString
         end.
Proof.
  unfold SlugRule.hyphenateRuns.
  destruct r as [|d r'].
  { simpl. unfold SlugRule.hyphenateRun. simpl. by destruct (alnum c). }
  destruct (runs_head d r') as (block & others & Hr).
  change (SlugRule.runs (String c (String d r'))) with
    (match SlugRule.runs (String d r') with
     | (inside, block) :: others =>
         if Bool.eqb inside (alnum c)
         then (inside, String c block) :: others
         else (alnum c, String c EmptyString) :: (inside, block) :: others
     | [] => [(alnum c, String c EmptyString)]
     end).
  rewrite Hr. unfold SlugRule.hyphenateRun.
  destruct (alnum c) eqn:Ec, (alnum d) eqn:Ed; simpl; reflexivity.
Qed.

Lemma hyphenateRuns_outside c r :
  alnum c = false ->
  exists t, SlugRule.hyphenateRuns (String c r) = String hyphen t.
Proof.
  revert c. induction r as [|d r IH]; intros c Ec;
    rewrite hyphenateRuns_cons, Ec; [by eauto|].
  destruct (alnum d) eqn:Ed; [by eauto|]. by apply IH.
Qed.

Lemma replaceScan_runs s :
  replaceScan false s = SlugRule.hyphenateRuns s /\
  replaceScan true s =
    match s with
    | String c _ =>
        if alnum c then SlugRule.hyphenateRuns s
        else dropUnits 1 (SlugRule.hyphenateRuns s)
    | EmptyString => EmptyString
    end.
Proof.
  induction s as [|c s [IHf IHt]]; [by split|].
  rewrite hyphenateRuns_cons.
  cbn [replaceScan]. destruct (alnum c) eqn:Ec.
  - rewrite IHf. by split.
  - rewrite IHt. destruct s as [|d s']; [by split|].
    destruct (alnum d) eqn:Ed; [by split|].
    split; [|reflexivity].
    (* the run goes on: its hyphen is the head of what follows *)
    destruct (hyphenateRuns_outside d s' Ed) as [t ->]. reflexivity.
Qed.

End StringFacts.

(** *** One hyphen at each end is all there is *)

Section EdgeHyphens.

Lemma dropFinalHyphen_empty c r :
  dropFinalHyphen (String c r) = "" -> r = "" /\ is_hyphen c = true.
Proof.
  destruct r as [|d r]; simpl.
  - destruct (is_hyphen c); [by split | discriminate].
  - discriminate.
Qed.

Lemma dropFinalHyphen_stripTrailing s :
  sparse s -> dropFinalHyphen s = SlugRule.stripTrailing s.
Proof.
  induction s as [|c r IH]; [reflexivity|].
  intros [Hc Hr]. specialize (IH Hr).
  destruct r as [|d r'].
  { simpl. reflexivity. }
  change (dropFinalHyphen (String c (String d r')))
    with (String c (dropFinalHyphen (String d r'))).
  change (SlugRule.stripTrailing (String c (String d r'))) with
    (match SlugRule.stripTrailing (String d r') with
     | EmptyString => if is_hyphen c then EmptyString else String c EmptyString
     | kept => String c kept
     end).
  rewrite <- IH.
  destruct (dropFinalHyphen (String d r')) eqn:E; [|reflexivity].
  apply dropFinalHyphen_empty in E as [-> Hd].
  destruct (is_hyphen c) eqn:Ec; [|reflexivity].
  specialize (Hc eq_refl). simpl in Hc. congruence.
Qed.

Lemma stripLeading_sparse s :
  sparse s ->
  SlugRule.stripLeading s =
    match s with
    | String c r => if is_hyphen c then r else s
    | EmptyString => EmptyString
    end.
Proof.
  destruct s as [|c r]; [reflexivity|]. intros [Hc Hr]. simpl.
  destruct (is_hyphen c) eqn:Ec; [|reflexivity].
  specialize (Hc eq_refl). destruct r as [|d r']; [reflexivity|].
  simpl in *. by rewrite Hc.
Qed.

Lemma replaceEdgeHyphens_strip s :
  sparse s ->
  replaceEdgeHyphens s = SlugRule.stripTrailing (SlugRule.stripLeading s).
Proof.
  intros Hs. rewrite (stripLeading_sparse s Hs).
  destruct s as [|c r]; [reflexivity|]. unfold replaceEdgeHyphens.
  destruct Hs as [Hc Hr].
  destruct (is_hyphen c) eqn:Ec.
  - by apply dropFinalHyphen_stripTrailing.
  - apply dropFinalHyphen_stripTrailing. split; [|exact Hr]. congruence.
Qed.

End EdgeHyphens.

(** The chain of calls computes the slug rule. *)
Lemma slugOf_slug_rule title : slugOf title = SlugRule.slug_rule title.
Proof.
  unfold slugOf, SlugRule.slug_rule, replaceNonAlnum.
  rewrite substring_from_0, replaceEdgeHyphens_strip by apply replaceScan_sparse.
  by rewrite (proj1 (replaceScan_runs _)).
Qed.

Lemma replaceScan_noAlnum s :
  noAlnum s = true ->
  replaceScan true s = "" /\
  replaceScan false s = (if nonempty s then "-" else "").
Proof.
  induction s as [|c r IH]; [by split|].
  simpl. intros [Hc Hr]%andb_prop. apply negb_true_iff in Hc. rewrite Hc.
  destruct (IH Hr) as [-> _]. by split.
Qed.

Lemma slugOf_noAlnum s : noAlnum (toLowerCase s) = true -> slugOf s = "".
Proof.
  intros Hs. unfold slugOf, replaceNonAlnum.
  rewrite (proj2 (replaceScan_noAlnum _ Hs)).
  by destruct (nonempty (toLowerCase s)).
Qed.

(** ** Field mapping *)

Section MappingFacts.
Context {D : DateLib}.

Lemma assignFirst_other aliases fieldSlugs v (fd : gmap string jsval) k :
  k ∉ aliases ->
  assignFirst aliases fieldSlugs v fd !! k = fd !! k.
Proof.
  induction aliases as [|a rest IH]; intros Hk; simpl; [reflexivity|].
  apply not_elem_of_cons in Hk as [Hka Hk].
  destruct (bool_decide (a ∈ fieldSlugs) && nonempty v).
  - by rewrite lookup_insert_ne.
  - by apply IH.
Qed.

Lemma assignFirst_dom aliases fieldSlugs v (fd : gmap string jsval) :
  dom (assignFirst aliases fieldSlugs v fd) ⊆ dom fd ∪ fieldSlugs.
Proof.
  induction aliases as [|a rest IH]; simpl; [set_solver|].
  destruct (bool_decide (a ∈ fieldSlugs)) eqn:Ea; simpl; [|exact IH].
  destruct (nonempty v); [|exact IH].
  apply bool_decide_eq_true in Ea. rewrite dom_insert_L. set_solver.
Qed.

(** A guarded assignment [if (fieldSlugs.has(k) && v) fieldData[k] = x]. *)
Lemma guarded_insert_dom (fieldSlugs : gset string) k (b : bool) x
    (fd : gmap string jsval) (G : gset string) :
  dom fd ⊆ G ∪ fieldSlugs ->
  dom (if bool_decide (k ∈ fieldSlugs) && b then <[k := x]> fd else fd)
    ⊆ G ∪ fieldSlugs.
Proof.
  intros Hfd. destruct (bool_decide (k ∈ fieldSlugs)) eqn:Ek; simpl; [|exact Hfd].
  destruct b; [|exact Hfd].
  apply bool_decide_eq_true in Ek. rewrite dom_insert_L. set_solver.
Qed.

Lemma guarded_insert_other (fieldSlugs : gset string) k (b : bool) x
    (fd : gmap string jsval) j :
  k ≠ j ->
  (if bool_decide (k ∈ fieldSlugs) && b then <[k := x]> fd else fd) !! j = fd !! j.
Proof.
  intros Hk. destruct (bool_decide (k ∈ fieldSlugs) && b); [|reflexivity].
  by rewrite lookup_insert_ne.
Qed.

Lemma mapSplashToWebflow_dom splashEvent fieldSlugs :
  dom (mapSplashToWebflow splashEvent fieldSlugs)
    ⊆ {[ "name"; "slug" ]} ∪ fieldSlugs.
Proof.
  unfold mapSplashToWebflow. destruct (eventDateTime splashEvent) as [eventDate eventTime].
  repeat (etrans; [apply assignFirst_dom|]; apply union_least; [|set_solver]).
  do 4 apply guarded_insert_dom.
  rewrite <- (andb_true_r (bool_decide (_ ∈ _))).
  apply guarded_insert_dom.
  rewrite !dom_insert_L, dom_empty_L. set_solver.
Qed.

Lemma mapSplashToWebflow_name splashEvent fieldSlugs :
  mapSplashToWebflow splashEvent fieldSlugs !! "name"
    = Some (JStr (or_default (title splashEvent) defaultTitle)).
Proof.
  unfold mapSplashToWebflow. destruct (eventDateTime splashEvent) as [eventDate eventTime].
  rewrite !assignFirst_other
    by (unfold citySlugs, stateSlugs, typeSlugs; set_solver).
  rewrite !guarded_insert_other by done.
  rewrite <- (andb_true_r (bool_decide (_ ∈ _))).
  rewrite guarded_insert_other by done.
  by rewrite lookup_insert_ne, lookup_insert_eq.
Qed.

Lemma mapSplashToWebflow_slug splashEvent fieldSlugs :
  mapSplashToWebflow splashEvent fieldSlugs !! "slug"
    = Some (JStr (slugOf (or_default (title splashEvent) defaultTitle))).
Proof.
  unfold mapSplashToWebflow. destruct (eventDateTime splashEvent) as [eventDate eventTime].
  rewrite !assignFirst_other
    by (unfold citySlugs, stateSlugs, typeSlugs; set_solver).
  rewrite !guarded_insert_other by done.
  rewrite <- (andb_true_r (bool_decide (_ ∈ _))).
  rewrite guarded_insert_other by done.
  by rewrite lookup_insert_eq.
Qed.

Lemma mapSplashToWebflow_splash_id splashEvent fieldSlugs :
  mapSplashToWebflow splashEvent fieldSlugs !! "splash-id"
    = if bool_decide ("splash-id" ∈ fieldSlugs)
      then Some (JStr (String_ (id splashEvent))) else None.
Proof.
  unfold mapSplashToWebflow. destruct (eventDateTime splashEvent) as [eventDate eventTime].
  rewrite !assignFirst_other
    by (unfold citySlugs, stateSlugs, typeSlugs; set_solver).
  rewrite !guarded_insert_other by done.
  destruct (bool_decide ("splash-id" ∈ fieldSlugs)).
  - by rewrite lookup_insert_eq.
  - by rewrite !lookup_insert_ne.
Qed.

End MappingFacts.

(** The host's [Date] matters for events with an [event_start] only. *)
Lemma mapSplashToWebflow_no_start (D1 D2 : DateLib) splashEvent fieldSlugs :
  event_start splashEvent = None ->
  mapSplashToWebflow (D := D1) splashEvent fieldSlugs
    = mapSplashToWebflow (D := D2) splashEvent fieldSlugs.
Proof.
  intros Hstart. unfold mapSplashToWebflow, eventDateTime.
  by rewrite Hstart.
Qed.

(** ** The slug and the keys of the projection *)

(** C8. For every title the projected slug is the title (or the default
    title, when the title is absent or empty) lower-cased, with every
    maximal run of characters outside [a-z0-9] replaced by one hyphen,
    leading and trailing hyphens stripped, truncated to 100 characters.
    The title "Fall Launch Event!!" gives "fall-launch-event"; an absent
    or empty title gives the name "Untitled Event" and the slug
    "untitled-event". *)
Theorem slug_generation {D : DateLib} :
  (forall event fieldSlugs,
     mapSplashToWebflow event fieldSlugs !! "slug" =
       Some (JStr (SlugRule.slug_rule (or_default (title event) "Untitled Event"))))
  /\ (forall event fieldSlugs,
        mapSplashToWebflow (setTitle (Some "Fall Launch Event!!") event) fieldSlugs
          !! "slug" = Some (JStr "fall-launch-event"))
  /\ (forall event fieldSlugs,
        mapSplashToWebflow (setTitle None event) fieldSlugs !! "name"
          = Some (JStr "Untitled Event") /\
        mapSplashToWebflow (setTitle None event) fieldSlugs !! "slug"
          = Some (JStr "untitled-event"))
  /\ (forall event fieldSlugs,
        mapSplashToWebflow (setTitle (Some "") event) fieldSlugs !! "name"
          = Some (JStr "Untitled Event") /\
        mapSplashToWebflow (setTitle (Some "") event) fieldSlugs !! "slug"
          = Some (JStr "untitled-event")).
Proof.
  repeat split; intros;
    rewrite ?mapSplashToWebflow_slug, ?mapSplashToWebflow_name;
    try reflexivity.
  by rewrite slugOf_slug_rule.
Qed.

(** C9. A title that is not empty but whose lower-cased form has no
    character in [a-z0-9] is kept as the name (the default title is not
    used), and the key 'slug' is emitted with the empty string. *)
Theorem symbols_only_title_gives_empty_slug {D : DateLib} event fieldSlugs t :
  title event = Some t ->
  t <> "" ->
  noAlnum (toLowerCase t) = true ->
  mapSplashToWebflow event fieldSlugs !! "name" = Some (JStr t) /\
  mapSplashToWebflow event fieldSlugs !! "slug" = Some (JStr "").
Proof.
  intros Ht Hne Hsym.
  rewrite mapSplashToWebflow_name, mapSplashToWebflow_slug, Ht. simpl.
  apply String.eqb_neq in Hne. rewrite Hne.
  by rewrite slugOf_noAlnum.
Qed.

Lemma symbols_only_title_witness :
  mapSplashToWebflow (D := noStart) (plainEvent 1 "!!!") ∅ !! "name"
    = Some (JStr "!!!") /\
  mapSplashToWebflow (D := noStart) (plainEvent 1 "!!!") ∅ !! "slug"
    = Some (JStr "").
Proof.
  apply (symbols_only_title_gives_empty_slug (D := noStart)
           (plainEvent 1 "!!!") ∅ "!!!");
    [reflexivity | discriminate | reflexivity].
Defined.

(** C2, as amended. Every key of the projection other than 'name' and
    'slug' is a key of the schema; 'name' and 'slug' are always keys of
    the projection. *)
Theorem schema_containment_but_name_slug {D : DateLib} event fieldSlugs :
  (forall key, key ∈ dom (mapSplashToWebflow event fieldSlugs) ->
     key = "name" \/ key = "slug" \/ key ∈ fieldSlugs)
  /\ "name" ∈ dom (mapSplashToWebflow event fieldSlugs)
  /\ "slug" ∈ dom (mapSplashToWebflow event fieldSlugs).
Proof.
  split; [|split].
  - intros key Hkey. apply mapSplashToWebflow_dom in Hkey. set_solver.
  - apply elem_of_dom. rewrite mapSplashToWebflow_name. eauto.
  - apply elem_of_dom. rewrite mapSplashToWebflow_slug. eauto.
Qed.

(** C2, as stated, fails: with a schema that has the key 'splash-id'
    only, the projection still has the key 'name'. *)
Lemma schema_containment_fails :
  ~ (forall key,
       key ∈ dom (mapSplashToWebflow (D := noStart) (plainEvent 1 "Launch")
                    {[ "splash-id" ]}) ->
       key ∈ ({[ "splash-id" ]} : gset string)).
Proof.
  intros Hall. specialize (Hall "name").
  assert ("name" ∈ ({[ "splash-id" ]} : gset string)) as Hin.
  { apply Hall, elem_of_dom. rewrite mapSplashToWebflow_name. eauto. }
  apply elem_of_singleton in Hin. discriminate.
Qed.

(** ** The dedup scan *)

Section Scan.

Lemma emits_emits es1 es2 w : emits es2 (emits es1 w) = emits (es1 ++ es2) w.
Proof. unfold emits. simpl. by rewrite app_assoc. Qed.

Lemma emit_emits e es w : emits es (emit e w) = emits (e :: es) w.
Proof. unfold emit. by rewrite emits_emits. Qed.

Lemma emits_nil w : emits [] w = w.
Proof. destruct w. unfold emits. simpl. by rewrite app_nil_r. Qed.

(** One turn of the loop. *)
Lemma scanItems_step fuel offset existingIds w :
  scanItems (S fuel) offset existingIds w =
    match listing w (collection w) offset limit with
    | Answer data =>
        let items := default [] data in
        let ids := foldl addSplashId existingIds items in
        if (N.of_nat (length items) <? limit)%N
        then Some (Ret ids, emit (GetItems offset limit) w)
        else scanItems fuel (offset + limit)%N ids (emit (GetItems offset limit) w)
    | Fault f =>
        Some (Throw (failure "Webflow fetch failed: " f),
              emit (GetItems offset limit) w)
    end.
Proof.
  cbn [scanItems]. unfold bind, perform, expect. cbn [collection listing emit emits].
  destruct (listing w (collection w) offset limit) as [data|f]; [|reflexivity].
  unfold ret. cbn beta iota.
  by destruct (N.of_nat (length (default [] data)) <? limit)%N.
Qed.

Lemma pageRequests_cons first count :
  pageRequests first (S count) =
    GetItems (N.of_nat (first * 100)) limit :: pageRequests (S first) count.
Proof. reflexivity. Qed.

Lemma length_pageAt items offset :
  length (pageAt items offset) = Nat.min 100 (length items - offset).
Proof. unfold pageAt. by rewrite length_take, length_drop. Qed.

(** On a paged collection the loop, started at page [k], reads the rest
    of the collection page after page. *)
Lemma scanItems_paged fuel : forall k existingIds w,
  listing w = pagedListing ->
  k * 100 <= length (collection w) ->
  length (collection w) / 100 < k + fuel ->
  scanItems fuel (N.of_nat (k * 100)) existingIds w =
    Some (Ret (foldl addSplashId existingIds (drop (k * 100) (collection w))),
          emits (pageRequests k (length (collection w) / 100 + 1 - k)) w).
Proof.
  induction fuel as [|fuel IH]; intros k existingIds w Hpaged Hk Hfuel.
  { pose proof (Nat.div_mod_eq (length (collection w)) 100).
    pose proof (Nat.mod_upper_bound (length (collection w)) 100). lia. }
  rewrite scanItems_step, Hpaged. unfold pagedListing.
  replace (N.to_nat limit) with 100 by reflexivity.
  rewrite Nat2N.id. fold (pageAt (collection w) (k * 100)).
  cbn [from_option Datatypes.id]. cbn zeta.
  pose proof (length_pageAt (collection w) (k * 100)) as Hlen.
  pose proof (Nat.div_mod_eq (length (collection w)) 100) as Hdiv.
  pose proof (Nat.mod_upper_bound (length (collection w)) 100) as Hmod.
  destruct (N.ltb_spec (N.of_nat (length (pageAt (collection w) (k * 100)))) limit)
    as [Hshort|Hfull]; unfold limit in *.
  - (* the last page *)
    assert (length (collection w) / 100 = k) as Hq by lia.
    rewrite Hq. replace (k + 1 - k) with 1 by lia.
    unfold pageAt. rewrite take_ge by (rewrite length_drop; lia).
    reflexivity.
  - (* a full page: on to the next offset *)
    replace (N.of_nat (k * 100) + 100)%N with (N.of_nat (S k * 100)) by lia.
    rewrite IH; cbn [collection listing emit emits]; [|done|lia|lia].
    rewrite emit_emits.
    replace (length (collection w) / 100 + 1 - k)
      with (S (length (collection w) / 100 + 1 - S k)) by lia.
    rewrite pageRequests_cons. unfold limit. do 3 f_equal.
    rewrite <- foldl_app. f_equal. unfold pageAt.
    replace (S k * 100) with (k * 100 + 100) by lia.
    by rewrite <- drop_drop, take_drop.
Qed.

(** Membership in the index built by the inner loop. *)
Lemma elem_of_foldl_addSplashId items : forall existingIds v,
  v ∈ foldl addSplashId existingIds items <->
  v ∈ existingIds \/
  exists item, item ∈ items /\ splashIdOf item = v /\ truthy v = true.
Proof.
  induction items as [|item items IH]; intros existingIds v; simpl.
  { split; [by left|]. intros [Hv0 | (item & Hin & _)]; [done|]. by apply elem_of_nil in Hin. }
  rewrite IH. unfold addSplashId.
  destruct (truthy (splashIdOf item)) eqn:Et.
  - rewrite elem_of_union, elem_of_singleton. split.
    + intros [[Hv | ->] | (it & Hin & Hit)]; [by left| |].
      * right. exists item. split; [left|done].
      * right. exists it. split; [by right|done].
    + intros [Hv0 | (it & Hin & Hid & Hv)]; [by left; left|].
      apply elem_of_cons in Hin as [->|Hin]; [by left; right|].
      right. by exists it.
  - split.
    + intros [Hv0 | (it & Hin & Hit)]; [by left|].
      right. exists it. split; [by right|done].
    + intros [Hv0 | (it & Hin & Hid & Hv)]; [by left|].
      apply elem_of_cons in Hin as [->|Hin]; [congruence|].
      right. by exists it.
Qed.

Lemma elem_of_idsOf items v :
  v ∈ idsOf items <->
  exists item, item ∈ items /\ splashIdOf item = v /\ truthy v = true.
Proof.
  unfold idsOf. rewrite elem_of_foldl_addSplashId. set_solver.
Qed.

Lemma size_foldl_addSplashId items : forall existingIds,
  size (foldl addSplashId existingIds items) <= size existingIds + length items.
Proof.
  induction items as [|item items IH]; intros existingIds; simpl; [lia|].
  etrans; [apply IH|]. unfold addSplashId.
  destruct (truthy (splashIdOf item)); [|lia].
  pose proof (size_union_alt existingIds {[ splashIdOf item ]}) as Hu.
  pose proof (subseteq_size ({[ splashIdOf item ]} ∖ existingIds) {[ splashIdOf item ]}) as Hs.
  rewrite size_singleton in Hs. rewrite Hu.
  assert (size ({[splashIdOf item]} ∖ existingIds) <= 1) by (apply Hs; set_solver).
  lia.
Qed.

Lemma size_idsOf items : size (idsOf items) <= length items.
Proof.
  unfold idsOf. etrans; [apply size_foldl_addSplashId|].
  by rewrite size_empty.
Qed.

Lemma fetchExistingSplashIds_paged fuel w :
  listing w = pagedListing ->
  length (collection w) / 100 < fuel ->
  fetchExistingSplashIds fuel w =
    Some (Ret (idsOf (collection w)),
          emits (pageRequests 0 (length (collection w) / 100 + 1)) w).
Proof.
  intros Hpaged Hfuel. unfold fetchExistingSplashIds.
  change 0%N with (N.of_nat (0 * 100)).
  rewrite scanItems_paged; [|done|lia|lia].
  by rewrite Nat.sub_0_r, drop_0.
Qed.

End Scan.

(** C5. On a collection served in offset/limit pages of 100 the scanner
    returns (it does not throw) after requesting the pages at offsets 0,
    100, ... up to the first page with fewer than 100 items, which is the
    page after the last full one; its result holds exactly the truthy
    'splash-id' values of the items, so an item whose 'splash-id' is
    absent or empty adds nothing; with 250 items the requests are the
    three at offsets 0, 100 and 200, the pages have 100, 100 and 50 items
    and the set has at most 250 elements. *)
Theorem dedup_scan_paged fuel w :
  listing w = pagedListing ->
  length (collection w) / 100 < fuel ->
  fetchExistingSplashIds fuel w =
    Some (Ret (idsOf (collection w)),
          emits (pageRequests 0 (length (collection w) / 100 + 1)) w)
  /\ (forall i, i < length (collection w) / 100 ->
        length (pageAt (collection w) (i * 100)) = 100)
  /\ length (pageAt (collection w) (length (collection w) / 100 * 100)) < 100
  /\ (forall v, v ∈ idsOf (collection w) <->
        exists item, item ∈ collection w /\ splashIdOf item = v /\ truthy v = true)
  /\ (forall item, item ∈ collection w ->
        splashIdOf item = JUndefined \/ splashIdOf item = JStr "" ->
        splashIdOf item ∉ idsOf (collection w))
  /\ size (idsOf (collection w)) <= length (collection w)
  /\ (length (collection w) = 250 ->
        pageRequests 0 (length (collection w) / 100 + 1) =
          [GetItems 0 100; GetItems 100 100; GetItems 200 100]
        /\ map (fun offset => length (pageAt (collection w) offset)) [0; 100; 200]
             = [100; 100; 50]
        /\ size (idsOf (collection w)) <= 250).
Proof.
  intros Hpaged Hfuel.
  pose proof (Nat.div_mod_eq (length (collection w)) 100) as Hdiv.
  pose proof (Nat.mod_upper_bound (length (collection w)) 100) as Hmod.
  split; [by apply fetchExistingSplashIds_paged|].
  split; [intros i Hi; rewrite length_pageAt; lia|].
  split; [rewrite length_pageAt; lia|].
  split; [apply elem_of_idsOf|].
  split.
  { intros item _ Hid Hin. apply elem_of_idsOf in Hin as (it & _ & _ & Ht).
    destruct Hid as [Hid|Hid]; rewrite Hid in Ht; discriminate. }
  split; [apply size_idsOf|].
  intros H250. split; [by rewrite H250|]. split.
  - cbn [map]. rewrite !length_pageAt, H250. reflexivity.
  - rewrite <- H250. apply size_idsOf.
Qed.

Lemma dedup_scan_250_witness :
  fetchExistingSplashIds 3 world250 =
    Some (Ret (idsOf (collection world250)),
          emits [GetItems 0 100; GetItems 100 100; GetItems 200 100] world250).
Proof.
  exact (proj1 (dedup_scan_paged 3 world250 eq_refl (le_n 3))).
Defined.

(** The loop started at page [j] stops at page [j + k] at the latest when
    that page is short. *)
Lemma scanItems_stops k : forall j existingIds w body,
  listing w (collection w) (N.of_nat ((j + k) * 100)) limit = Answer body ->
  length (default [] body) < 100 ->
  exists r n, n <= k /\
    forall fuel, k < fuel ->
      scanItems fuel (N.of_nat (j * 100)) existingIds w =
        Some (r, emits (pageRequests j (S n)) w).
Proof.
  induction k as [|k IH]; intros j existingIds w body Hpage Hshort.
  - exists (Ret (foldl addSplashId existingIds (default [] body))), 0.
    split; [done|]. intros [|fuel] Hfuel; [lia|].
    rewrite scanItems_step. rewrite Nat.add_0_r in Hpage. rewrite Hpage. cbn zeta.
    destruct (N.ltb_spec (N.of_nat (length (default [] body))) limit)
      as [_|Hfull]; [reflexivity|]. unfold limit in Hfull. lia.
  - destruct (listing w (collection w) (N.of_nat (j * 100)) limit)
      as [data|f] eqn:Hj.
    + destruct (N.ltb_spec (N.of_nat (length (default [] data))) limit)
        as [Hlt|Hfull].
      * exists (Ret (foldl addSplashId existingIds (default [] data))), 0.
        split; [lia|]. intros [|fuel] Hfuel; [lia|].
        rewrite scanItems_step, Hj. cbn zeta.
        apply N.ltb_lt in Hlt. by rewrite Hlt.
      * destruct (IH (S j) (foldl addSplashId existingIds (default [] data))
                    (emit (GetItems (N.of_nat (j * 100)) limit) w) body)
          as (r & n & Hn & Hrun); [|done|].
        { cbn [collection listing emit emits].
          by replace ((S j + k) * 100) with ((j + S k) * 100) by lia. }
        exists r, (S n). split; [lia|]. intros [|fuel] Hfuel; [lia|].
        rewrite scanItems_step, Hj. cbn zeta.
        apply N.ltb_ge in Hfull. rewrite Hfull.
        replace (N.of_nat (j * 100) + limit)%N with (N.of_nat (S j * 100))
          by (unfold limit; lia).
        rewrite Hrun by lia. by rewrite emit_emits.
    + exists (Throw (failure "Webflow fetch failed: " f)), 0.
      split; [lia|]. intros [|fuel] Hfuel; [lia|].
      by rewrite scanItems_step, Hj.
Qed.

(** C10. Whatever pages the destination serves, if the page at some
    offset 100 * k has fewer than 100 items then the pagination loop
    terminates: with any fuel above k it gives one and the same result,
    after requesting the offsets 0, 100, ..., 100 * n for some n <= k
    (every turn either stops or moves the offset up by 100). *)
Theorem pagination_terminates w k body :
  listing w (collection w) (N.of_nat (k * 100)) limit = Answer body ->
  length (default [] body) < 100 ->
  exists r n, n <= k /\
    forall fuel, k < fuel ->
      fetchExistingSplashIds fuel w = Some (r, emits (pageRequests 0 (S n)) w).
Proof.
  intros Hpage Hshort. unfold fetchExistingSplashIds.
  change 0%N with (N.of_nat (0 * 100)).
  by apply (scanItems_stops k 0 ∅ w body).
Qed.

Lemma pagination_terminates_witness :
  exists r n, n <= 2 /\
    forall fuel, 2 < fuel ->
      fetchExistingSplashIds fuel world250 =
        Some (r, emits (pageRequests 0 (S n)) world250).
Proof.
  apply (pagination_terminates world250 2
           (Some (replicate 50 (draftOf {[ "splash-id" := JStr "7" ]}))));
    [reflexivity | exact (proj1 (Nat.leb_le 51 100) eq_refl)].
Defined.

(** ** The write loop *)

Section WriteLoop.
Context {D : DateLib}.

Lemma written_nil w : written [] 0 [] w = w.
Proof. destruct w. unfold written. simpl. by rewrite !app_nil_r. Qed.

Lemma createWebflowEvent_run eventData w :
  createWebflowEvent eventData w =
    match create_answers w with
    | Fault f :: _ =>
        Some (Throw (failure "Webflow create failed: " f),
              written [] 1 [PostItem (draftOf eventData)] w)
    | _ => Some (Ret tt, written [draftOf eventData] 1 [PostItem (draftOf eventData)] w)
    end.
Proof.
  unfold createWebflowEvent, bind, perform, throw, ret, written, answerCreate, emit, emits.
  cbn [create_answers collection trace env schema_answer token_answer events_answer listing].
  rewrite app_nil_r.
  destruct (create_answers w) as [|[body|f] answers]; reflexivity.
Qed.

Lemma written_written s1 u1 es1 s2 u2 es2 w :
  written s2 u2 es2 (written s1 u1 es1 w) =
    written (s1 ++ s2) (u1 + u2) (es1 ++ es2) w.
Proof.
  unfold written. simpl. by rewrite drop_drop, !app_assoc.
Qed.

Lemma create_answers_written s u es w :
  create_answers (written s u es w) = drop u (create_answers w).
Proof. reflexivity. Qed.

(** One turn of the loop. *)
Lemma writeLoop_cons event rest fieldSlugs p w :
  writeLoop (event :: rest) fieldSlugs p w =
    match create_answers w with
    | Fault f :: _ =>
        writeLoop rest fieldSlugs
          {| p_synced := p_synced p; p_syncedEvents := p_syncedEvents p;
             p_errors := p_errors p
                           ++ [(id event, failure "Webflow create failed: " f)] |}
          (written [] 1 [PostItem (attemptOf fieldSlugs event)] w)
    | _ =>
        writeLoop rest fieldSlugs
          {| p_synced := S (p_synced p);
             p_syncedEvents := p_syncedEvents p ++ [event];
             p_errors := p_errors p |}
          (written [attemptOf fieldSlugs event] 1
             [PostItem (attemptOf fieldSlugs event); Pause 1100] w)
    end.
Proof.
  cbn [writeLoop]. unfold bind at 1. unfold tryCatch, bind at 1.
  rewrite createWebflowEvent_run. unfold attemptOf.
  destruct (create_answers w) as [|[body|f] answers]; try reflexivity.
  all: unfold bind, perform, ret, emit, emits, written;
    cbn [create_answers collection trace env schema_answer token_answer
         events_answer listing];
    by rewrite <- app_assoc.
Qed.

(** The loop never throws and never hangs; what it returns and what it
    leaves behind follow from the answers to its create calls. *)
Lemma writeLoop_run newEvents fieldSlugs : forall p w,
  writeLoop newEvents fieldSlugs p w =
    Some
      (Ret {| p_synced := p_synced p
                          + length (acceptedOf newEvents (create_answers w));
              p_syncedEvents := p_syncedEvents p
                                ++ acceptedOf newEvents (create_answers w);
              p_errors := p_errors p
                          ++ failuresOf newEvents (create_answers w) |},
       written (map (attemptOf fieldSlugs)
                  (acceptedOf newEvents (create_answers w)))
               (length newEvents)
               (writeTrace newEvents fieldSlugs (create_answers w)) w).
Proof.
  induction newEvents as [|event rest IH]; intros p w.
  { simpl. rewrite written_nil, Nat.add_0_r, !app_nil_r. by destruct p. }
  rewrite writeLoop_cons.
  destruct (create_answers w) as [|[body|f] answers] eqn:Hans;
    rewrite IH; cbn [p_synced p_syncedEvents p_errors];
    rewrite written_written, !create_answers_written, Hans;
    cbn [acceptedOf failuresOf writeTrace length map tail drop];
    rewrite <- ?app_assoc, ?drop_0; cbn [app length map];
    rewrite ?Nat.add_succ_r; reflexivity.
Qed.

End WriteLoop.

(** ** The run *)

Section Run.
Context {D : DateLib}.

(** The scan reads the listing and the collection only, and only adds
    page requests to the trace. *)
Lemma scanItems_frame fuel : forall offset existingIds w r w1,
  scanItems fuel offset existingIds w = Some (r, w1) ->
  exists es,
    w1 = emits es w /\
    posted es = [] /\
    forall w0, listing w0 = listing w -> collection w0 = collection w ->
      scanItems fuel offset existingIds w0 = Some (r, emits es w0).
Proof.
  induction fuel as [|fuel IH]; intros offset existingIds w r w1 Hrun;
    [discriminate|].
  rewrite scanItems_step in Hrun.
  destruct (listing w (collection w) offset limit) as [data|f] eqn:Hpage.
  - cbn zeta in Hrun.
    destruct (N.of_nat (length (default [] data)) <? limit)%N eqn:Hlen.
    + injection Hrun as <- <-. exists [GetItems offset limit].
      split; [done|]. split; [done|]. intros w0 Hl Hc.
      by rewrite scanItems_step, Hl, Hc, Hpage; cbn zeta; rewrite Hlen.
    + apply IH in Hrun as (es & -> & Hposted & Hany).
      exists (GetItems offset limit :: es). rewrite emit_emits.
      split; [done|]. split; [done|]. intros w0 Hl Hc.
      rewrite scanItems_step, Hl, Hc, Hpage; cbn zeta; rewrite Hlen.
      rewrite Hany by done. by rewrite emit_emits.
  - injection Hrun as <- <-. exists [GetItems offset limit].
    split; [done|]. split; [done|]. intros w0 Hl Hc.
    by rewrite scanItems_step, Hl, Hc, Hpage.
Qed.

(** More fuel does not change a result. *)
Lemma scanItems_more_fuel fuel : forall extra offset existingIds w x,
  scanItems fuel offset existingIds w = Some x ->
  scanItems (fuel + extra) offset existingIds w = Some x.
Proof.
  induction fuel as [|fuel IH]; intros extra offset existingIds w x Hrun;
    [discriminate|].
  rewrite scanItems_step in Hrun. cbn [Nat.add]. rewrite scanItems_step.
  destruct (listing w (collection w) offset limit) as [data|f]; [|done].
  cbn zeta in *.
  destruct (N.of_nat (length (default [] data)) <? limit)%N; [done|].
  by apply IH.
Qed.

(** On a paged collection a scan that returns has read all of it. *)
Lemma fetchExistingSplashIds_paged_inv fuel w x :
  listing w = pagedListing ->
  fetchExistingSplashIds fuel w = Some x ->
  x = (Ret (idsOf (collection w)),
       emits (pageRequests 0 (length (collection w) / 100 + 1)) w).
Proof.
  intros Hpaged Hrun.
  apply (scanItems_more_fuel _ (S (length (collection w) / 100))) in Hrun.
  unfold fetchExistingSplashIds in *.
  pose proof (fetchExistingSplashIds_paged
                (fuel + S (length (collection w) / 100)) w Hpaged) as Hp.
  unfold fetchExistingSplashIds in Hp. rewrite Hp in Hrun by lia.
  by injection Hrun.
Qed.

Lemma missing_none w :
  envReady w ->
  List.filter (fun key => negb (envSet w key)) required = [].
Proof.
  unfold envReady. induction 1 as [|key keys Hkey _ IH]; [done|].
  simpl. by rewrite Hkey.
Qed.

Lemma missing_some w :
  List.filter (fun key => negb (envSet w key)) required = [] -> envReady w.
Proof.
  unfold envReady. induction required as [|key keys IH]; [constructor|].
  simpl. destruct (envSet w key) eqn:Hkey; simpl; [|discriminate].
  intros Hrest. constructor; [done|]. by apply IH.
Qed.

(** The run once the three reads have answered. *)
Lemma sync_run fuel w fields tok evs :
  envReady w ->
  schema_answer w = Answer fields ->
  token_answer w = Answer tok ->
  events_answer w = Answer evs ->
  sync fuel w =
    match fetchExistingSplashIds fuel (emits (readsOf tok) w) with
    | Some (Ret existingIds, w4) =>
        let fieldSlugs : gset string := list_to_set (map slug (default [] fields)) in
        let splashEvents := List.filter isPublished evs in
        let newEvents := List.filter (isNew existingIds) splashEvents in
        if (length newEvents =? 0)%nat
        then Some (Ret {| synced := 0; errors := None;
                          total := length splashEvents |}, w4)
        else
          let created := acceptedOf newEvents (create_answers w4) in
          Some (Ret {| synced := length created;
                       errors := Some (failuresOf newEvents (create_answers w4));
                       total := length splashEvents |},
                notified created
                  (written (map (attemptOf fieldSlugs) created)
                     (length newEvents)
                     (writeTrace newEvents fieldSlugs (create_answers w4)) w4))
    | Some (Throw m, w4) => Some (Throw m, w4)
    | None => None
    end.
Proof.
  intros Henv Hschema Htoken Hevents.
  unfold sync. unfold bind at 1. unfold ret at 1.
  rewrite (missing_none w Henv). cbn [length Nat.ltb Nat.leb].
  unfold bind at 1. unfold fetchCollectionSchema, bind at 1, perform at 1.
  unfold bind at 1. cbn [schema_answer emit emits]. rewrite Hschema.
  cbn [expect]. unfold ret at 1 2.
  unfold bind at 1. unfold getSplashAccessToken, bind at 1, perform at 1.
  cbn [token_answer emit emits]. rewrite Htoken. cbn [expect]. unfold ret at 1.
  unfold bind at 1. unfold fetchSplashEvents, bind at 1, perform at 1.
  cbn [events_answer emit emits]. rewrite Hevents. cbn [expect]. unfold ret at 1.
  unfold bind at 1.
  replace (emit (GetEvents tok) (emit PostToken (emit GetSchema w)))
    with (emits (readsOf tok) w)
    by (unfold emit; rewrite !emits_emits; reflexivity).
  destruct (fetchExistingSplashIds fuel (emits (readsOf tok) w))
    as [[[existingIds|m] w4]|]; [|reflexivity|reflexivity].
  cbn zeta.
  destruct (length (List.filter (isNew existingIds) (List.filter isPublished evs))
            =? 0)%nat; [reflexivity|].
  unfold bind at 1. rewrite writeLoop_run. cbn [p_synced p_syncedEvents p_errors].
  unfold bind, sendSlackNotification, notified, ret, perform. cbn [app Nat.add].
  set (created := acceptedOf _ _).
  unfold Nat.ltb. destruct (length created); cbn [Nat.leb andb]; [reflexivity|].
  by destruct (envSet _ "SLACK_WEBHOOK_URL").
Qed.

(** A run that returns has had its three reads answered. *)
Lemma sync_returns fuel w r w' :
  sync fuel w = Some (Ret r, w') ->
  envReady w /\
  exists fields tok evs,
    schema_answer w = Answer fields /\
    token_answer w = Answer tok /\
    events_answer w = Answer evs.
Proof.
  intros Hrun.
  assert (envReady w) as Henv.
  { apply missing_some. revert Hrun. unfold sync. unfold bind at 1. unfold ret at 1.
    destruct (List.filter _ required); [done|]. discriminate. }
  split; [done|]. revert Hrun.
  unfold sync. unfold bind at 1. unfold ret at 1.
  rewrite (missing_none w Henv). cbn [length Nat.ltb Nat.leb].
  unfold bind at 1. unfold fetchCollectionSchema, bind at 1, perform at 1.
  unfold bind at 1. cbn [schema_answer emit emits].
  destruct (schema_answer w) as [fields|f] eqn:Hschema; [|discriminate].
  cbn [expect]. unfold ret at 1 2.
  unfold bind at 1. unfold getSplashAccessToken, bind at 1, perform at 1.
  cbn [token_answer emit emits].
  destruct (token_answer w) as [tok|f] eqn:Htoken; [|discriminate].
  cbn [expect]. unfold ret at 1.
  unfold bind at 1. unfold fetchSplashEvents, bind at 1, perform at 1.
  cbn [events_answer emit emits].
  destruct (events_answer w) as [evs|f] eqn:Hevents; [|discriminate].
  intros _. by exists fields, tok, evs.
Qed.

End Run.

(** ** What a run writes *)

Section Writes.
Context {D : DateLib}.

Lemma posted_app es1 es2 :
  posted (es1 ++ es2) = (posted es1 ++ posted es2)%list.
Proof. apply omap_app. Qed.

Lemma posted_writeTrace newEvents fieldSlugs : forall answers,
  posted (writeTrace newEvents fieldSlugs answers)
    = map (attemptOf fieldSlugs) newEvents.
Proof.
  induction newEvents as [|event rest IH]; intros answers; [done|].
  cbn [writeTrace map]. rewrite <- (IH (tail answers)).
  by destruct answers as [|[body|f] answers].
Qed.

Lemma posted_pageRequests first count : posted (pageRequests first count) = [].
Proof.
  unfold pageRequests. revert first.
  induction count as [|count IH]; intros first; [done|]. apply IH.
Qed.

Lemma posted_notified created w :
  posted (trace (notified created w)) = posted (trace w).
Proof.
  unfold notified. destruct (_ && _); [|done].
  cbn [emit emits trace]. rewrite posted_app. cbn. by rewrite app_nil_r.
Qed.

Lemma collection_notified created w :
  collection (notified created w) = collection w.
Proof. unfold notified. by destruct (_ && _). Qed.

Lemma filter_filter {A} (f g : A -> bool) l :
  List.filter g (List.filter f l) = List.filter (fun x => f x && g x) l.
Proof.
  induction l as [|x l IH]; [done|]. simpl.
  destruct (f x); simpl; [|exact IH]. destruct (g x); by rewrite IH.
Qed.

Lemma length_zero_nil {A} (l : list A) : (length l =? 0)%nat = true -> l = [].
Proof. by destruct l. Qed.

(** The answers that decide a loop with no failure, and with one. *)
Lemma no_failure_all_accepted newEvents : forall answers,
  failuresOf newEvents answers = [] -> acceptedOf newEvents answers = newEvents.
Proof.
  induction newEvents as [|event rest IH]; intros answers Hnone; [done|].
  cbn [failuresOf acceptedOf] in *.
  destruct answers as [|[body|f] answers]; [| |discriminate];
    cbn [tail] in *; by rewrite IH.
Qed.

Lemma no_fault_accepted newEvents : forall answers,
  (forall i f, i < length newEvents -> answers !! i <> Some (Fault f)) ->
  failuresOf newEvents answers = [] /\ acceptedOf newEvents answers = newEvents.
Proof.
  induction newEvents as [|event rest IH]; intros answers Hok; [done|].
  cbn [failuresOf acceptedOf].
  destruct answers as [|[body|f] answers]; cbn [tail].
  - destruct (IH []) as [-> ->]; [|done]. intros i f _. by rewrite lookup_nil.
  - destruct (IH answers) as [-> ->]; [|done]. intros i f Hi.
    apply (Hok (S i) f). simpl. lia.
  - exfalso. apply (Hok 0 f); [simpl; lia | done].
Qed.

Lemma one_fault_isolated newEvents : forall answers k event f,
  newEvents !! k = Some event ->
  answers !! k = Some (Fault f) ->
  (forall i f', i < length newEvents -> answers !! i = Some (Fault f') -> i = k) ->
  failuresOf newEvents answers = [(id event, failure "Webflow create failed: " f)]
  /\ acceptedOf newEvents answers = delete k newEvents.
Proof.
  induction newEvents as [|e rest IH]; intros answers k event f Hk Hf Hone;
    [done|].
  cbn [failuresOf acceptedOf].
  destruct k as [|k].
  - injection Hk as ->. destruct answers as [|a answers]; [done|].
    injection Hf as ->. cbn [tail delete].
    destruct (no_fault_accepted rest answers) as [-> ->]; [|done].
    intros i f' Hi Hfault.
    assert (S i = 0) by (apply (Hone (S i) f'); [simpl; lia | done]). lia.
  - destruct answers as [|a answers]; [done|]. cbn [tail].
    destruct (IH answers k event f) as [-> ->]; [done|done| |].
    { intros i f' Hi Hfault.
      assert (S i = S k) by (apply (Hone (S i) f'); [simpl; lia | done]). lia. }
    destruct a as [body|f0]; [done|].
    assert (0 = S k) by (apply (Hone 0 f0); [simpl; lia | done]). lia.
Qed.

End Writes.

(** ** The claims about a run *)

Section RunClaims.
Context {D : DateLib}.

Lemma strictly_true_iff v : strictly_true v = true <-> v = JBool true.
Proof. destruct v as [| |[|]| | |]; simpl; split; congruence. Qed.

Lemma attempted_filters existingIds evs :
  List.filter (isNew existingIds) (List.filter isPublished evs)
    = attempted existingIds evs.
Proof. apply filter_filter. Qed.

Lemma elem_of_attempted existingIds evs event :
  In event (attempted existingIds evs) <->
  In event evs /\ published event = JBool true
  /\ JStr (String_ (id event)) ∉ existingIds.
Proof.
  unfold attempted. rewrite List.filter_In, andb_true_iff, strictly_true_iff,
    negb_true_iff, bool_decide_eq_false. tauto.
Qed.

(** The scan of a run sees what a scan of the starting world sees. *)
Lemma scan_after_reads fuel w r w_scan es0 :
  fetchExistingSplashIds fuel w = Some (r, w_scan) ->
  exists es,
    posted es = [] /\
    fetchExistingSplashIds fuel (emits es0 w) = Some (r, emits es (emits es0 w)).
Proof.
  intros Hscan. apply scanItems_frame in Hscan as (es & _ & Hes & Hany).
  exists es. split; [done|]. by apply Hany.
Qed.

(** A run returns as soon as its reads are answered and the fuel covers
    the pages of the collection. *)
Lemma sync_completes fuel w fields tok evs :
  envReady w ->
  schema_answer w = Answer fields ->
  token_answer w = Answer tok ->
  events_answer w = Answer evs ->
  listing w = pagedListing ->
  length (collection w) / 100 < fuel ->
  exists r w', sync fuel w = Some (Ret r, w').
Proof.
  intros Henv Hschema Htoken Hevents Hpaged Hfuel.
  rewrite (sync_run fuel w fields tok evs Henv Hschema Htoken Hevents).
  rewrite fetchExistingSplashIds_paged by done. cbn zeta.
  destruct (length _ =? 0)%nat; eauto.
Qed.

(** C4. In a run that returns, the create calls are those of the source
    records whose publication flag is exactly true and whose identifier,
    as a string, is not in the dedup index, in the order of the listing:
    a record is attempted if and only if it passes both tests, and a
    record whose flag is false or absent is never attempted. *)
Theorem diff_rule fuel w r w' fields evs existingIds w_scan :
  sync fuel w = Some (Ret r, w') ->
  schema_answer w = Answer fields ->
  events_answer w = Answer evs ->
  fetchExistingSplashIds fuel w = Some (Ret existingIds, w_scan) ->
  posted (trace w') =
    (posted (trace w)
       ++ map (attemptOf (slugsOf fields)) (attempted existingIds evs))%list
  /\ (forall event,
        In event (attempted existingIds evs) <->
        In event evs /\ published event = JBool true
        /\ JStr (String_ (id event)) ∉ existingIds)
  /\ (forall event,
        published event = JBool false \/ published event = JUndefined ->
        ~ In event (attempted existingIds evs)).
Proof.
  intros Hrun Hschema Hevents Hscan.
  split; [|split].
  - destruct (sync_returns _ _ _ _ Hrun)
      as (Henv & fields' & tok & evs' & Hs & Ht & He).
    rewrite Hschema in Hs. injection Hs as <-.
    rewrite Hevents in He. injection He as <-.
    rewrite (sync_run fuel w fields tok evs Henv Hschema Ht Hevents) in Hrun.
    destruct (scan_after_reads fuel w _ _ (readsOf tok) Hscan) as (es & Hes & Hs).
    rewrite Hs in Hrun. cbn zeta in Hrun. rewrite attempted_filters in Hrun.
    destruct (length (attempted existingIds evs) =? 0)%nat eqn:Hnew.
    + injection Hrun as _ <-. rewrite (length_zero_nil _ Hnew).
      cbn [emits trace map]. rewrite !posted_app, Hes. cbn. by rewrite !app_nil_r.
    + injection Hrun as _ <-.
      rewrite posted_notified. cbn [written emits trace].
      rewrite !posted_app, Hes, posted_writeTrace. cbn. by rewrite !app_nil_r.
  - apply elem_of_attempted.
  - intros event Hflag Hin. apply elem_of_attempted in Hin as (_ & Hpub & _).
    destruct Hflag; congruence.
Qed.

(** C3. When exactly one of the N new records, the one at position k,
    has its create call refused, the run returns with N - 1 created, one
    failure entry that pairs that record's identifier with the error
    message, and one create call for every new record, in the order of
    the listing. *)
Theorem partial_failure_isolation
    fuel w fields tok evs existingIds w_scan k event f :
  envReady w ->
  schema_answer w = Answer fields ->
  token_answer w = Answer tok ->
  events_answer w = Answer evs ->
  fetchExistingSplashIds fuel w = Some (Ret existingIds, w_scan) ->
  attempted existingIds evs !! k = Some event ->
  create_answers w !! k = Some (Fault f) ->
  (forall i f', i < length (attempted existingIds evs) ->
     create_answers w !! i = Some (Fault f') -> i = k) ->
  exists w',
    sync fuel w =
      Some (Ret {| synced := length (attempted existingIds evs) - 1;
                   errors := Some [(id event,
                                    failure "Webflow create failed: " f)];
                   total := length (List.filter isPublished evs) |}, w')
    /\ posted (trace w') =
         (posted (trace w)
            ++ map (attemptOf (slugsOf fields)) (attempted existingIds evs))%list.
Proof.
  intros Henv Hschema Htoken Hevents Hscan Hk Hf Hone.
  rewrite (sync_run fuel w fields tok evs Henv Hschema Htoken Hevents).
  destruct (scan_after_reads fuel w _ _ (readsOf tok) Hscan) as (es & Hes & ->).
  cbn zeta. rewrite attempted_filters.
  destruct (attempted existingIds evs) as [|e0 rest] eqn:Hnew; [done|].
  rewrite <- Hnew in *. replace (length _ =? 0)%nat with false
    by (rewrite Hnew; reflexivity).
  change (create_answers (emits es (emits (readsOf tok) w)))
    with (create_answers w).
  destruct (one_fault_isolated _ _ _ _ _ Hk Hf Hone) as [-> ->].
  rewrite length_delete by eauto.
  eexists. split; [reflexivity|].
  rewrite posted_notified. cbn [written emits trace].
  rewrite !posted_app, Hes, posted_writeTrace. cbn. by rewrite !app_nil_r.
Qed.

End RunClaims.

Lemma diff_rule_witness :
  posted (trace scenarioAfter) =
    (posted (trace scenarioWorld)
       ++ map (attemptOf (D := noStart)
                 (slugsOf (Some (map (fun s => {| slug := s |}) schema3))))
            (attempted {[ JStr "2" ]}
               [event1; event2; unpublishedEvent; event3]))%list.
Proof.
  apply (diff_rule (D := noStart) 1 scenarioWorld
           {| synced := 2; errors := Some []; total := 3 |}
           scenarioAfter
           (Some (map (fun s => {| slug := s |}) schema3))
           [event1; event2; unpublishedEvent; event3]
           {[ JStr "2" ]}
           (emits [GetItems 0 100] scenarioWorld));
    reflexivity.
Defined.

Lemma partial_failure_isolation_witness :
  exists w',
    sync (D := noStart) 1 refusalWorld =
      Some (Ret {| synced := length (attempted ∅ [event1; event2; event3]) - 1;
                   errors := Some [(id event2,
                                    failure "Webflow create failed: "
                                      (Status 429 "Too Many Requests"))];
                   total := length (List.filter isPublished
                                      [event1; event2; event3]) |}, w')
    /\ posted (trace w') =
         (posted (trace refusalWorld)
            ++ map (attemptOf (D := noStart)
                      (slugsOf (Some (map (fun s => {| slug := s |}) schema3))))
                 (attempted ∅ [event1; event2; event3]))%list.
Proof.
  apply (partial_failure_isolation (D := noStart) 1 refusalWorld
           (Some (map (fun s => {| slug := s |}) schema3)) (JStr "token")
           [event1; event2; event3] ∅
           (emits [GetItems 0 100] refusalWorld) 1 event2
           (Status 429 "Too Many Requests")).
  - repeat constructor.
  - reflexivity.
  - reflexivity.
  - reflexivity.
  - reflexivity.
  - reflexivity.
  - reflexivity.
  - intros [|[|[|i]]] f' Hi Hf; try discriminate Hf; reflexivity.
Defined.

(** ** Where the code departs from what it announces *)

(** In the trace of the write loop an accepted create call is followed by
    the pause, and a refused one by the next create call. *)
Lemma writeTrace_accepted {D : DateLib} event rest fieldSlugs body answers :
  writeTrace (event :: rest) fieldSlugs (Answer body :: answers) =
    PostItem (attemptOf fieldSlugs event) :: Pause 1100
      :: writeTrace rest fieldSlugs answers.
Proof. reflexivity. Qed.

Lemma writeTrace_refused {D : DateLib} event next rest fieldSlugs f answers :
  exists es,
    writeTrace (event :: next :: rest) fieldSlugs (Fault f :: answers) =
      PostItem (attemptOf fieldSlugs event)
        :: PostItem (attemptOf fieldSlugs next) :: es.
Proof. cbn [writeTrace tail]. destruct answers as [|[body|f'] answers]; eauto. Qed.

(** C6. The run on a world with nothing new returns an object with
    [synced] and [total] only: its [errors] property is absent, where the
    return at the end of [sync] always has one. *)
Theorem early_return_has_no_errors :
  sync (D := noStart) 1 syncedWorld =
    Some (Ret {| synced := 0; errors := None; total := 1 |}, syncedAfter).
Proof. reflexivity. Qed.

(** C7. With two new events and the first create call refused, the run
    does the three reads, the page request, and then the two create calls
    one right after the other: the only pause is the one after the second,
    accepted, call. *)
Theorem no_pause_after_refused_create :
  sync (D := noStart) 1 firstRefusedWorld =
    Some (Ret {| synced := 1;
                 errors := Some [(JNum 1,
                                  "Webflow create failed: 429 - Too Many Requests")];
                 total := 2 |},
          firstRefusedAfter)
  /\ trace firstRefusedAfter =
       [GetSchema; PostToken; GetEvents (JStr "token"); GetItems 0 100;
        PostItem (attemptOf (D := noStart) (list_to_set schema3) event1);
        PostItem (attemptOf (D := noStart) (list_to_set schema3) event2);
        Pause 1100].
Proof. split; reflexivity. Qed.

(** ** Running twice *)

Section Idempotence.
Context {D : DateLib}.

Lemma idsOf_app items1 items2 v :
  v ∈ idsOf (items1 ++ items2) <-> v ∈ idsOf items1 \/ v ∈ idsOf items2.
Proof.
  rewrite !elem_of_idsOf. setoid_rewrite elem_of_app. naive_solver.
Qed.

(** With the field in the schema the created item carries the identifier
    as a string. *)
Lemma splashIdOf_attempt fieldSlugs event :
  "splash-id" ∈ fieldSlugs ->
  splashIdOf (attemptOf fieldSlugs event) = JStr (String_ (id event)).
Proof.
  intros Hin. unfold splashIdOf, attemptOf, draftOf. cbn [fieldData mbind option_bind].
  rewrite mapSplashToWebflow_splash_id.
  by rewrite bool_decide_eq_true_2.
Qed.

Lemma attempted_nil existingIds evs :
  (forall event, In event evs -> published event = JBool true ->
     JStr (String_ (id event)) ∈ existingIds) ->
  attempted existingIds evs = [].
Proof.
  intros Hall. destruct (attempted existingIds evs) as [|event rest] eqn:Hnew;
    [done|].
  assert (In event (attempted existingIds evs)) as Hin
    by (rewrite Hnew; by left).
  apply elem_of_attempted in Hin as (Hin & Hpub & Hid).
  destruct Hid. by apply Hall.
Qed.

(** What a run that returns leaves in a paged collection. *)
Lemma sync_collection fuel w r w' fields evs :
  sync fuel w = Some (Ret r, w') ->
  listing w = pagedListing ->
  schema_answer w = Answer fields ->
  events_answer w = Answer evs ->
  let newEvents := attempted (idsOf (collection w)) evs in
  let created := acceptedOf newEvents (create_answers w) in
  collection w' = (collection w ++ map (attemptOf (slugsOf fields)) created)%list
  /\ posted (trace w') =
       (posted (trace w) ++ map (attemptOf (slugsOf fields)) newEvents)%list
  /\ synced r = length created
  /\ (newEvents = [] -> errors r = None)
  /\ (newEvents <> [] ->
      errors r = Some (failuresOf newEvents (create_answers w))).
Proof.
  intros Hrun Hpaged Hschema Hevents newEvents created.
  destruct (sync_returns _ _ _ _ Hrun)
    as (Henv & fields' & tok & evs' & Hs & Ht & He).
  rewrite Hschema in Hs. injection Hs as <-.
  rewrite Hevents in He. injection He as <-.
  rewrite (sync_run fuel w fields tok evs Henv Hschema Ht Hevents) in Hrun.
  destruct (fetchExistingSplashIds fuel (emits (readsOf tok) w))
    as [x|] eqn:Hscan; [|discriminate].
  apply fetchExistingSplashIds_paged_inv in Hscan; [|done]. subst x.
  cbn zeta in Hrun. cbn [collection emits] in Hrun.
  rewrite attempted_filters in Hrun. fold newEvents in Hrun.
  change (create_answers (emits _ (emits (readsOf tok) w)))
    with (create_answers w) in Hrun. fold created in Hrun.
  destruct (Nat.eqb_spec (length newEvents) 0) as [Hzero|Hsome].
  - apply length_zero_iff_nil in Hzero. injection Hrun as <- <-.
    subst created. rewrite Hzero.
    cbn [acceptedOf map emits collection trace synced errors length].
    rewrite !app_nil_r, !posted_app, posted_pageRequests.
    repeat split; try done. cbn. by rewrite !app_nil_r.
  - injection Hrun as <- <-.
    rewrite collection_notified, posted_notified.
    cbn [written emits collection trace synced errors].
    rewrite !posted_app, posted_writeTrace, posted_pageRequests.
    repeat split; try done.
    + cbn. by rewrite !app_nil_r.
    + intros Hnil. rewrite Hnil in Hsome. done.
Qed.

(** C1, as amended. When the schema has the field 'splash-id', the
    string form of the identifier of every published record is not empty
    and the first run returns without a failed create, a second run on
    the same source and on the collection as the first run left it, served
    in pages, performs no create call: its created count is 0 and the
    collection stays as it is. *)
Theorem second_run_creates_nothing
    fuel1 fuel2 w r1 w1 fields evs w2 r2 w2' :
  sync fuel1 w = Some (Ret r1, w1) ->
  listing w = pagedListing ->
  schema_answer w = Answer fields ->
  "splash-id" ∈ slugsOf fields ->
  events_answer w = Answer evs ->
  (forall event, In event evs -> published event = JBool true ->
     String_ (id event) <> "") ->
  errors r1 = None \/ errors r1 = Some [] ->
  events_answer w2 = Answer evs ->
  collection w2 = collection w1 ->
  listing w2 = pagedListing ->
  sync fuel2 w2 = Some (Ret r2, w2') ->
  synced r2 = 0
  /\ posted (trace w2') = posted (trace w2)
  /\ collection w2' = collection w2.
Proof.
  intros Hrun1 Hpaged Hschema Hfield Hevents Hids Hclean Hevents2 Hcoll Hpaged2 Hrun2.
  destruct (sync_collection _ _ _ _ _ _ Hrun1 Hpaged Hschema Hevents)
    as (Hc1 & _ & _ & Hnone & Hsome).
  assert (attempted (idsOf (collection w2)) evs = []) as Hnothing.
  { apply attempted_nil. intros event Hin Hpub.
    rewrite Hcoll, Hc1. apply idsOf_app.
    destruct (decide (JStr (String_ (id event)) ∈ idsOf (collection w)))
      as [Hold|Hnew]; [by left|right].
    assert (In event (attempted (idsOf (collection w)) evs)) as Hatt
      by by apply elem_of_attempted.
    assert (failuresOf (attempted (idsOf (collection w)) evs) (create_answers w)
            = []) as Hfail.
    { destruct (attempted (idsOf (collection w)) evs) eqn:E; [done|].
      rewrite Hsome in Hclean by done. destruct Hclean; congruence. }
    rewrite (no_failure_all_accepted _ _ Hfail).
    apply elem_of_idsOf. exists (attemptOf (slugsOf fields) event).
    split; [|split].
    - apply list_elem_of_fmap. exists event. split; [done|].
      by apply list_elem_of_In.
    - by apply splashIdOf_attempt.
    - simpl. apply negb_true_iff, String.eqb_neq. by apply Hids. }
  destruct (sync_returns _ _ _ _ Hrun2)
    as (_ & fields2 & _ & evs2 & Hs2 & _ & He2).
  rewrite Hevents2 in He2. injection He2 as <-.
  destruct (sync_collection _ _ _ _ _ _ Hrun2 Hpaged2 Hs2 Hevents2)
    as (Hc2 & Hp2 & Hn2 & _).
  rewrite Hnothing in *. cbn [acceptedOf map length] in *.
  rewrite app_nil_r in Hc2, Hp2. done.
Qed.

End Idempotence.

Lemma second_run_creates_nothing_witness :
  synced {| synced := 0; errors := None; total := 3 |} = 0
  /\ posted (trace scenarioAfter2) = posted (trace scenarioAfter)
  /\ collection scenarioAfter2 = collection scenarioAfter.
Proof.
  apply (second_run_creates_nothing (D := noStart) 1 1 scenarioWorld
           {| synced := 2; errors := Some []; total := 3 |} scenarioAfter
           (Some (map (fun s => {| slug := s |}) schema3))
           [event1; event2; unpublishedEvent; event3]
           scenarioAfter
           {| synced := 0; errors := None; total := 3 |} scenarioAfter2).
  - reflexivity.
  - reflexivity.
  - reflexivity.
  - apply (bool_decide_unpack _). vm_compute. exact I.
  - reflexivity.
  - intros event [<-|[<-|[<-|[<-|[]]]]] _; discriminate.
  - right. reflexivity.
  - reflexivity.
  - reflexivity.
  - reflexivity.
  - reflexivity.
Defined.

(** C1, as stated, fails: the schema of [noIdFieldWorld] has no
    'splash-id' field, so the item created by the first run carries no
    identifier; the first run returns with one record created and no
    failure, and the second run, on the world the first one left and with
    the source unchanged, creates the record again. *)
Lemma second_run_creates_again :
  sync (D := noStart) 1 noIdFieldWorld =
    Some (Ret {| synced := 1; errors := Some []; total := 1 |}, noIdFieldAfter)
  /\ events_answer noIdFieldAfter = events_answer noIdFieldWorld
  /\ sync (D := noStart) 1 noIdFieldAfter =
       Some (Ret {| synced := 1; errors := Some []; total := 1 |},
             noIdFieldAfter2)
  /\ synced {| synced := 1; errors := Some []; total := 1 |} <> 0
  /\ length (collection noIdFieldAfter2) = 2.
Proof. repeat split; try reflexivity. discriminate. Qed.

(* ================================================================== *)
(** * Further properties of the code *)

(** ** The shape of a slug *)

Section SlugShape.

Lemma substring_0 n s : substring 0 n s = takeUnits n s.
Proof.
  unfold substring. rewrite Nat.max_0_l, Nat.min_0_l, Nat.sub_0_r.
  by destruct s.
Qed.

Lemma replaceScan_units b s : allUnits slugUnit (replaceScan b s) = true.
Proof.
  revert b. induction s as [|c s IH]; intros b; simpl; [done|].
  destruct (alnum c) eqn:Ec.
  - simpl. unfold slugUnit at 1. by rewrite Ec, IH.
  - destruct b; [apply IH|]. simpl. by rewrite IH.
Qed.

Lemma dropFinalHyphen_units p s :
  allUnits p s = true -> allUnits p (dropFinalHyphen s) = true.
Proof.
  induction s as [|c r IH]; [done|]. intros [Hc Hr]%andb_prop.
  destruct r as [|d r']; [simpl; destruct (is_hyphen c); simpl; by rewrite ?Hc|].
  change (dropFinalHyphen (String c (String d r')))
    with (String c (dropFinalHyphen (String d r'))).
  cbn [allUnits]. by rewrite Hc, IH.
Qed.

Lemma dropFinalHyphen_sparse s : sparse s -> sparse (dropFinalHyphen s).
Proof.
  induction s as [|c r IH]; [done|]. intros [Hc Hr].
  destruct r as [|d r']; [simpl; by destruct (is_hyphen c)|].
  change (dropFinalHyphen (String c (String d r')))
    with (String c (dropFinalHyphen (String d r'))).
  split; [|by apply IH]. intros Hh. specialize (Hc Hh).
  destruct r' as [|e r'']; [simpl in *; by rewrite Hc|exact Hc].
Qed.

Lemma dropFinalHyphen_start s :
  startsHyphen s = false -> startsHyphen (dropFinalHyphen s) = false.
Proof.
  destruct s as [|c [|d r]]; simpl; try done.
  intros E. by rewrite E.
Qed.

(** After the final hyphen has gone, a string without two hyphens in a
    row does not end with one. *)
Lemma dropFinalHyphen_end s : sparse s -> endsHyphen (dropFinalHyphen s) = false.
Proof.
  induction s as [|c r IH]; [done|]. intros [Hc Hr].
  destruct r as [|d r']; [simpl; by destruct (is_hyphen c) eqn:E; simpl; rewrite ?E|].
  specialize (IH Hr).
  change (dropFinalHyphen (String c (String d r')))
    with (String c (dropFinalHyphen (String d r'))).
  destruct (dropFinalHyphen (String d r')) as [|e t] eqn:Hd; [|exact IH].
  apply dropFinalHyphen_empty in Hd as [-> Hd].
  simpl. destruct (is_hyphen c) eqn:E; [|done].
  specialize (Hc eq_refl). simpl in Hc. congruence.
Qed.

Lemma replaceEdgeHyphens_shape s :
  allUnits slugUnit s = true -> sparse s ->
  allUnits slugUnit (replaceEdgeHyphens s) = true
  /\ sparse (replaceEdgeHyphens s)
  /\ startsHyphen (replaceEdgeHyphens s) = false
  /\ endsHyphen (replaceEdgeHyphens s) = false.
Proof.
  destruct s as [|c r]; [done|]. intros [Hc Hr]%andb_prop [Hs Hsr].
  unfold replaceEdgeHyphens. destruct (is_hyphen c) eqn:E.
  - repeat split; [by apply dropFinalHyphen_units | by apply dropFinalHyphen_sparse
                  | by apply dropFinalHyphen_start, Hs | by apply dropFinalHyphen_end].
  - assert (sparse (String c r)) as Hall by (split; [congruence|done]).
    repeat split; [apply dropFinalHyphen_units; cbn [allUnits]; by apply andb_true_intro
                  | by apply dropFinalHyphen_sparse
                  | apply dropFinalHyphen_start; exact E
                  | by apply dropFinalHyphen_end].
Qed.

Lemma takeUnits_length n s : String.length (takeUnits n s) <= n.
Proof.
  revert s. induction n as [|n IH]; intros [|c s]; simpl; try lia.
  specialize (IH s). lia.
Qed.

Lemma takeUnits_length_exact n s :
  n <= String.length s -> String.length (takeUnits n s) = n.
Proof.
  revert s. induction n as [|n IH]; intros [|c s]; simpl; try lia.
  intros Hlen. rewrite IH; [done|lia].
Qed.

Lemma takeUnits_all n s : String.length s <= n -> takeUnits n s = s.
Proof.
  revert s. induction n as [|n IH]; intros [|c s]; simpl; try done; [lia|].
  intros Hlen. rewrite IH; [done|lia].
Qed.

Lemma takeUnits_units p n s :
  allUnits p s = true -> allUnits p (takeUnits n s) = true.
Proof.
  revert s. induction n as [|n IH]; intros [|c s]; simpl; try done.
  intros [Hc Hs]%andb_prop. by rewrite Hc, IH.
Qed.

Lemma takeUnits_start n s :
  startsHyphen s = false -> startsHyphen (takeUnits n s) = false.
Proof. by destruct n, s. Qed.

Lemma takeUnits_sparse n s : sparse s -> sparse (takeUnits n s).
Proof.
  revert s. induction n as [|n IH]; intros [|c s]; simpl; try done.
  intros [Hc Hs]. split; [|by apply IH]. intros Hh.
  apply takeUnits_start. by apply Hc.
Qed.

(** What the chain of calls gives before the cut at 100. *)
Lemma uncut_slug_shape title :
  let uncut := replaceEdgeHyphens (replaceNonAlnum (toLowerCase title)) in
  slugOf title = takeUnits 100 uncut
  /\ allUnits slugUnit uncut = true
  /\ sparse uncut
  /\ startsHyphen uncut = false
  /\ endsHyphen uncut = false.
Proof.
  intros uncut. split; [unfold slugOf; by rewrite substring_0|].
  apply replaceEdgeHyphens_shape;
    [apply replaceScan_units | apply replaceScan_sparse].
Qed.

End SlugShape.

(** X1. Whatever the title, the slug has at most 100 units, all of them
    in [a-z0-9] or hyphens, it does not start with a hyphen and it has no
    two hyphens in a row. *)
Theorem slug_shape title :
  String.length (slugOf title) <= 100
  /\ allUnits slugUnit (slugOf title) = true
  /\ startsHyphen (slugOf title) = false
  /\ sparse (slugOf title).
Proof.
  destruct (uncut_slug_shape title) as (-> & Hu & Hs & Hh & _).
  repeat split;
    [apply takeUnits_length | by apply takeUnits_units
     | by apply takeUnits_start | by apply takeUnits_sparse].
Qed.

(** X2. A slug ends with a hyphen only when the cut at 100 units left it
    there: such a slug has exactly 100 units. *)
Theorem slug_trailing_hyphen_only_when_cut title :
  endsHyphen (slugOf title) = true -> String.length (slugOf title) = 100.
Proof.
  destruct (uncut_slug_shape title) as (Hcut & _ & _ & _ & Hend).
  rewrite Hcut. set (uncut := replaceEdgeHyphens _) in *. intros Hh.
  destruct (le_lt_dec (String.length uncut) 100) as [Hle|Hgt].
  - rewrite takeUnits_all in Hh by done. congruence.
  - apply takeUnits_length_exact. lia.
Qed.

Lemma slug_trailing_hyphen_witness : String.length (slugOf longTitle) = 100.
Proof.
  apply (slug_trailing_hyphen_only_when_cut longTitle). reflexivity.
Defined.

Section SlugAgain.

Lemma lowerUnit_slugUnit c : slugUnit c = true -> lowerUnit c = c.
Proof.
  unfold slugUnit. intros [Hc|Hc]%orb_prop.
  - unfold lowerUnit. unfold alnum, between in *.
    destruct (N.leb_spec 65 (code c)), (N.leb_spec (code c) 90),
      (N.leb_spec 192 (code c)), (N.leb_spec (code c) 222),
      (N.leb_spec 97 (code c)), (N.leb_spec (code c) 122),
      (N.leb_spec 48 (code c)), (N.leb_spec (code c) 57);
      simpl in *; try done; lia.
  - apply is_hyphen_true in Hc. by subst c.
Qed.

Lemma toLowerCase_units s : allUnits slugUnit s = true -> toLowerCase s = s.
Proof.
  induction s as [|c s IH]; [done|]. simpl. intros [Hc Hs]%andb_prop.
  by rewrite lowerUnit_slugUnit, IH.
Qed.

Lemma replaceScan_fixed s :
  allUnits slugUnit s = true -> sparse s ->
  replaceScan false s = s /\ (startsHyphen s = false -> replaceScan true s = s).
Proof.
  induction s as [|c s IH]; [done|].
  cbn [allUnits sparse]. intros [Hc Hs]%andb_prop [Hh Hsp].
  destruct (IH Hs Hsp) as [IHf IHt]. cbn [replaceScan startsHyphen].
  destruct (alnum c) eqn:Ec; [by rewrite IHf|].
  unfold slugUnit in Hc. rewrite Ec in Hc. simpl in Hc.
  split; [|congruence].
  rewrite IHt by auto. by rewrite (is_hyphen_true _ Hc).
Qed.

Lemma replaceEdgeHyphens_no_leading s :
  startsHyphen s = false -> replaceEdgeHyphens s = dropFinalHyphen s.
Proof. destruct s as [|c r]; [done|]. simpl. by intros ->. Qed.

Lemma dropFinalHyphen_length s :
  String.length (dropFinalHyphen s) <= String.length s.
Proof.
  induction s as [|c r IH]; [done|].
  destruct r as [|d r']; [simpl; destruct (is_hyphen c); simpl; lia|].
  change (dropFinalHyphen (String c (String d r')))
    with (String c (dropFinalHyphen (String d r'))).
  cbn [String.length] in *. lia.
Qed.

End SlugAgain.

(** X3. Taking the slug of a slug changes nothing but a hyphen at its
    end (which only the cut at 100 units can have left): the slug of a
    slug is that slug without its final hyphen. *)
Theorem slug_of_slug title :
  slugOf (slugOf title) = dropFinalHyphen (slugOf title).
Proof.
  destruct (uncut_slug_shape title) as (Hcut & Hu & Hs & Hh & _).
  assert (String.length (slugOf title) <= 100) as Hlen
    by (rewrite Hcut; apply takeUnits_length).
  assert (allUnits slugUnit (slugOf title) = true) as Hunits
    by (rewrite Hcut; by apply takeUnits_units).
  assert (sparse (slugOf title)) as Hsparse
    by (rewrite Hcut; by apply takeUnits_sparse).
  assert (startsHyphen (slugOf title) = false) as Hstart
    by (rewrite Hcut; by apply takeUnits_start).
  generalize dependent (slugOf title). intros slug _ Hlen Hunits Hsparse Hstart.
  unfold slugOf, replaceNonAlnum.
  rewrite toLowerCase_units by done.
  rewrite (proj1 (replaceScan_fixed slug Hunits Hsparse)).
  rewrite replaceEdgeHyphens_no_leading by done.
  rewrite substring_0. apply takeUnits_all.
  pose proof (dropFinalHyphen_length slug). lia.
Qed.

(** ** The identifier as a key *)

Section Identifier.
Context {D : DateLib}.


Lemma isNew_false existingIds event :
  isNew existingIds event = false <-> JStr (String_ (id event)) ∈ existingIds.
Proof.
  unfold isNew. rewrite negb_false_iff. apply bool_decide_eq_true.
Qed.

Lemma truthy_JStr s : truthy (JStr s) = true <-> s <> "".
Proof. simpl. rewrite negb_true_iff. apply String.eqb_neq. Qed.

End Identifier.

Lemma isNew_false_stored items event :
  isNew (idsOf items) event = false <->
  String_ (id event) <> ""
  /\ exists item, item ∈ items /\ splashIdOf item = JStr (String_ (id event)).
Proof.
  rewrite isNew_false, elem_of_idsOf. split.
  - intros (item & Hin & Hid & Ht). apply truthy_JStr in Ht. eauto.
  - intros (Hne & item & Hin & Hid). exists item.
    split; [done|]. split; [done|]. by apply truthy_JStr.
Qed.

(** X4. An event is taken as already synced exactly when the string form
    of its identifier is not empty and some item of the collection stores
    that very string under 'splash-id': an item that stores the
    identifier as a number does not count, and an event whose identifier
    has an empty string form is always new. *)
Theorem dedup_criterion items event :
  isNew (idsOf items) event = false <->
  String_ (id event) <> ""
  /\ exists item, item ∈ items /\ splashIdOf item = JStr (String_ (id event)).
Proof. apply isNew_false_stored. Qed.



(** ** More on the field mapping *)

Section MappingMore.
Context {D : DateLib}.

Lemma guarded_insert_here (c : bool) k x (fd : gmap string jsval) :
  (if c then <[k := x]> fd else fd) !! k = if c then Some x else fd !! k.
Proof. destruct c; [apply lookup_insert_eq | done]. Qed.

Lemma plain_insert_other (c : bool) k x (fd : gmap string jsval) j :
  k <> j -> (if c then <[k := x]> fd else fd) !! j = fd !! j.
Proof. intros Hk. destruct c; [by rewrite lookup_insert_ne | done]. Qed.

(** The map before the three alias loops. *)
Lemma mapSplashToWebflow_thumbnail splashEvent fieldSlugs :
  mapSplashToWebflow splashEvent fieldSlugs !! "thumbnail" =
    if bool_decide ("thumbnail" ∈ fieldSlugs) && nonempty (imageUrlOf splashEvent)
    then Some (JUrlObj (imageUrlOf splashEvent)) else None.
Proof.
  unfold mapSplashToWebflow. destruct (eventDateTime splashEvent) as [eventDate eventTime].
  rewrite !assignFirst_other
    by (unfold citySlugs, stateSlugs, typeSlugs; set_solver).
  rewrite guarded_insert_here. destruct (_ && _); [done|].
  rewrite !plain_insert_other by done.
  by rewrite !lookup_insert_ne.
Qed.

Lemma mapSplashToWebflow_date_time splashEvent fieldSlugs :
  mapSplashToWebflow splashEvent fieldSlugs !! "date" =
    (if bool_decide ("date" ∈ fieldSlugs)
        && nonempty (or_default (eventDateTime splashEvent).1 "")
     then Some (JStr (or_default (eventDateTime splashEvent).1 "")) else None)
  /\ mapSplashToWebflow splashEvent fieldSlugs !! "time" =
    (if bool_decide ("time" ∈ fieldSlugs) && nonempty (eventDateTime splashEvent).2
     then Some (JStr (eventDateTime splashEvent).2) else None).
Proof.
  unfold mapSplashToWebflow. destruct (eventDateTime splashEvent) as [eventDate eventTime].
  rewrite !assignFirst_other
    by (unfold citySlugs, stateSlugs, typeSlugs; set_solver).
  cbn [fst snd]. split.
  - rewrite !(plain_insert_other _ "thumbnail"), !(plain_insert_other _ "time") by done.
    rewrite guarded_insert_here. destruct (_ && _); [done|].
    rewrite !plain_insert_other by done. by rewrite !lookup_insert_ne.
  - rewrite !(plain_insert_other _ "thumbnail") by done.
    rewrite guarded_insert_here. destruct (_ && _); [done|].
    rewrite !plain_insert_other by done. by rewrite !lookup_insert_ne.
Qed.

Lemma prefix_http_https rest : startsWith "http://" ("https://" ++ rest) = false.
Proof. reflexivity. Qed.

Lemma imageUrlOf_secure splashEvent :
  startsWith "http://" (imageUrlOf splashEvent) = false.
Proof.
  unfold imageUrlOf.
  set (imageUrl := or_default _ "").
  destruct (nonempty imageUrl) eqn:Hne; cbn [andb].
  - destruct (startsWith "http://" imageUrl) eqn:Hp; [|exact Hp].
    apply prefix_http_https.
  - unfold nonempty in Hne. apply negb_false_iff, String.eqb_eq in Hne.
    by rewrite Hne.
Qed.

Lemma dropUnits_append p s : dropUnits (String.length p) (p ++ s) = s.
Proof. induction p as [|c p IH]; [by destruct s | exact IH]. Qed.

End MappingMore.

(** X6. A header image served over http is sent with the scheme https
    and the rest of the address as it is: only the leading 'http://' is
    replaced. *)
Theorem thumbnail_scheme_upgrade {D : DateLib} splashEvent fieldSlugs rest :
  event_setting splashEvent ≫= header_image = Some ("http://" ++ rest) ->
  "thumbnail" ∈ fieldSlugs ->
  mapSplashToWebflow splashEvent fieldSlugs !! "thumbnail"
    = Some (JUrlObj ("https://" ++ rest)).
Proof.
  intros Himg Hfield. rewrite mapSplashToWebflow_thumbnail.
  rewrite bool_decide_eq_true_2 by done.
  unfold imageUrlOf. rewrite Himg.
  change (or_default (Some ("http://" ++ rest)) "") with ("http://" ++ rest).
  change (nonempty ("http://" ++ rest)) with true.
  change (startsWith "http://" ("http://" ++ rest))
    with (startsWith "" rest).
  replace (startsWith "" rest) with true by (by destruct rest).
  cbn [andb]. unfold replacePrefix.
  by rewrite (dropUnits_append "http://" rest).
Qed.

Lemma thumbnail_scheme_upgrade_witness :
  mapSplashToWebflow (D := noStart) austinEvent driftedSchema !! "thumbnail"
    = Some (JUrlObj ("https://" ++ "cdn.example/a.png")).
Proof.
  apply (thumbnail_scheme_upgrade (D := noStart) austinEvent driftedSchema
           "cdn.example/a.png"); [reflexivity|].
  apply (bool_decide_unpack _). exact I.
Defined.

(** X7. Whenever the key 'thumbnail' is emitted, the schema has it and
    its value is an object whose address is not empty and does not start
    with 'http://'. *)
Theorem thumbnail_is_never_insecure {D : DateLib} splashEvent fieldSlugs v :
  mapSplashToWebflow splashEvent fieldSlugs !! "thumbnail" = Some v ->
  "thumbnail" ∈ fieldSlugs
  /\ exists url, v = JUrlObj url /\ url <> ""
                 /\ startsWith "http://" url = false.
Proof.
  rewrite mapSplashToWebflow_thumbnail.
  destruct (bool_decide ("thumbnail" ∈ fieldSlugs)) eqn:Hf; [|discriminate].
  destruct (nonempty (imageUrlOf splashEvent)) eqn:Hne; [|discriminate].
  intros [= <-]. split; [by apply bool_decide_eq_true in Hf|].
  exists (imageUrlOf splashEvent). split; [done|]. split.
  - by apply negb_true_iff, String.eqb_neq in Hne.
  - apply imageUrlOf_secure.
Qed.

Lemma thumbnail_is_never_insecure_witness :
  "thumbnail" ∈ driftedSchema
  /\ exists url, JUrlObj "https://cdn.example/a.png" = JUrlObj url /\ url <> ""
                 /\ startsWith "http://" url = false.
Proof.
  apply (thumbnail_is_never_insecure (D := noStart) austinEvent driftedSchema).
  reflexivity.
Defined.

(** X8. A start time that is absent, empty or that the host cannot parse
    is dropped without an error: the projection has neither 'date' nor
    'time', whatever the schema. *)
Theorem unparsable_start_is_dropped {D : DateLib} splashEvent fieldSlugs :
  or_default (event_start splashEvent) "" = ""
  \/ Date_parse (or_default (event_start splashEvent) "") = None ->
  mapSplashToWebflow splashEvent fieldSlugs !! "date" = None
  /\ mapSplashToWebflow splashEvent fieldSlugs !! "time" = None.
Proof.
  intros Hstart.
  destruct (mapSplashToWebflow_date_time splashEvent fieldSlugs) as [-> ->].
  assert (eventDateTime splashEvent = (None, "")) as ->.
  { unfold eventDateTime. destruct Hstart as [-> | ->]; [done|].
    by destruct (nonempty _). }
  cbn. by rewrite !andb_false_r.
Qed.

Lemma unparsable_start_is_dropped_witness :
  mapSplashToWebflow (D := noStart) austinEvent driftedSchema !! "date" = None
  /\ mapSplashToWebflow (D := noStart) austinEvent driftedSchema !! "time" = None.
Proof.
  apply (unparsable_start_is_dropped (D := noStart) austinEvent driftedSchema).
  right. reflexivity.
Defined.

Section Aliases.
Context {D : DateLib}.

Lemma firstIn_elem aliases fieldSlugs k :
  firstIn aliases fieldSlugs = Some k -> k ∈ aliases /\ k ∈ fieldSlugs.
Proof.
  induction aliases as [|a rest IH]; [done|]. simpl.
  destruct (bool_decide (a ∈ fieldSlugs)) eqn:Ha.
  - intros [= <-]. apply bool_decide_eq_true in Ha. split; [left|done].
  - intros [Hin Hk]%IH. split; [by right|done].
Qed.

(** With nothing to write, a loop over aliases leaves the map alone. *)
Lemma assignFirst_empty aliases fieldSlugs v (fd : gmap string jsval) :
  nonempty v = false -> assignFirst aliases fieldSlugs v fd = fd.
Proof.
  intros Hv. induction aliases as [|a rest IH]; [done|].
  cbn [assignFirst]. by rewrite Hv, andb_false_r.
Qed.

(** What a loop over aliases leaves under one of them. *)
Lemma assignFirst_lookup aliases fieldSlugs v (fd : gmap string jsval) k :
  NoDup aliases ->
  k ∈ aliases ->
  (forall a, a ∈ aliases -> fd !! a = None) ->
  assignFirst aliases fieldSlugs v fd !! k =
    if bool_decide (firstIn aliases fieldSlugs = Some k) && nonempty v
    then Some (JStr v) else None.
Proof.
  intros Hnodup Hk Hfree.
  destruct (nonempty v) eqn:Hv;
    [|rewrite assignFirst_empty, andb_false_r by done; by apply Hfree].
  rewrite andb_true_r.
  induction aliases as [|a rest IH]; [by apply elem_of_nil in Hk|].
  apply NoDup_cons in Hnodup as [Ha Hnodup]. cbn [assignFirst firstIn].
  rewrite Hv, andb_true_r.
  destruct (bool_decide (a ∈ fieldSlugs)) eqn:Hin.
  - destruct (decide (a = k)) as [->|Hne].
    + by rewrite lookup_insert_eq, bool_decide_eq_true_2.
    + rewrite lookup_insert_ne by done.
      rewrite bool_decide_eq_false_2 by congruence.
      apply Hfree, Hk.
  - apply elem_of_cons in Hk as [->|Hk].
    + rewrite assignFirst_other by done.
      rewrite bool_decide_eq_false_2; [apply Hfree; left|].
      by intros [Hin' _]%firstIn_elem.
    + apply IH; [done|done|]. intros c Hc. apply Hfree. by right.
Qed.

Lemma NoDup_aliases : NoDup citySlugs /\ NoDup stateSlugs /\ NoDup typeSlugs.
Proof.
  unfold citySlugs, stateSlugs, typeSlugs.
  repeat split; repeat (apply NoDup_cons; split; [set_solver|]); apply NoDup_nil_2.
Qed.

End Aliases.

Ltac alias_cases H :=
  apply list_elem_of_In in H; cbn in H;
  repeat (destruct H as [<- | H]); [.. | destruct H].

Ltac outside_aliases :=
  unfold citySlugs, stateSlugs, typeSlugs; set_solver.

Ltac before_aliases :=
  rewrite ?assignFirst_other by outside_aliases;
  rewrite !plain_insert_other by done;
  rewrite !lookup_insert_ne by done;
  apply lookup_empty.

(** X9. Of the known spellings of the city, state and type fields the
    first one that the schema has is the one written, and only when the
    source value is not empty; the other spellings of that field are
    never keys of the projection. *)
Theorem alias_first_match {D : DateLib} splashEvent fieldSlugs k :
  (k ∈ citySlugs ->
   mapSplashToWebflow splashEvent fieldSlugs !! k =
     if bool_decide (firstIn citySlugs fieldSlugs = Some k)
        && nonempty (or_default (city splashEvent) "")
     then Some (JStr (or_default (city splashEvent) "")) else None)
  /\ (k ∈ stateSlugs ->
      mapSplashToWebflow splashEvent fieldSlugs !! k =
        if bool_decide (firstIn stateSlugs fieldSlugs = Some k)
           && nonempty (or_default (state splashEvent) "")
        then Some (JStr (or_default (state splashEvent) "")) else None)
  /\ (k ∈ typeSlugs ->
      mapSplashToWebflow splashEvent fieldSlugs !! k =
        if bool_decide (firstIn typeSlugs fieldSlugs = Some k)
           && nonempty (or_default (event_type splashEvent ≫= name) "")
        then Some (JStr (or_default (event_type splashEvent ≫= name) ""))
        else None).
Proof.
  destruct NoDup_aliases as (Hcity & Hstate & Htype).
  unfold mapSplashToWebflow.
  destruct (eventDateTime splashEvent) as [eventDate eventTime].
  split; [|split]; intros Hk.
  - rewrite (assignFirst_other typeSlugs), (assignFirst_other stateSlugs)
      by (alias_cases Hk; outside_aliases).
    apply assignFirst_lookup; [done|done|].
    intros a Ha. alias_cases Ha; before_aliases.
  - rewrite (assignFirst_other typeSlugs) by (alias_cases Hk; outside_aliases).
    apply assignFirst_lookup; [done|done|].
    intros a Ha. alias_cases Ha; before_aliases.
  - apply assignFirst_lookup; [done|done|].
    intros a Ha. alias_cases Ha; before_aliases.
Qed.

Lemma alias_first_match_witness :
  mapSplashToWebflow (D := noStart) austinEvent driftedSchema !! "location---city"
    = Some (JStr "Austin")
  /\ mapSplashToWebflow (D := noStart) austinEvent driftedSchema !! "locationcity"
      = None.
Proof.
  split.
  - apply (proj1 (alias_first_match (D := noStart) austinEvent driftedSchema
                    "location---city")).
    apply (bool_decide_unpack _). exact I.
  - apply (proj1 (alias_first_match (D := noStart) austinEvent driftedSchema
                    "locationcity")).
    apply (bool_decide_unpack _). exact I.
Defined.

(** ** Runs that fail *)

Section Failures.
Context {D : DateLib}.

Lemma missingOf_nil w : missingOf w = [] <-> envReady w.
Proof. split; [apply missing_some | apply missing_none]. Qed.

Lemma elem_of_missingOf w key :
  In key (missingOf w) <->
  In key required /\ (env w !! key = None \/ env w !! key = Some "").
Proof.
  unfold missingOf. rewrite List.filter_In, negb_true_iff.
  unfold envSet, nonempty, or_default. split; intros [Hreq Hset]; split; try done.
  - destruct (env w !! key) as [v|]; [|by left]. right.
    destruct (String.eqb_spec v ""); [by subst|].
    apply negb_false_iff, String.eqb_eq in Hset. congruence.
  - by destruct Hset as [-> | ->].
Qed.

Lemma sync_unready fuel w :
  missingOf w <> [] ->
  sync fuel w =
    Some (Throw ("Missing required env vars: "
                 ++ String.concat ", " (missingOf w)), w).
Proof.
  intros Hmissing. unfold sync. unfold bind at 1. unfold ret at 1.
  fold (missingOf w). by destruct (missingOf w).
Qed.

Lemma sync_schema_fault fuel w f :
  envReady w -> schema_answer w = Fault f ->
  sync fuel w = Some (Throw (failure "Webflow schema fetch failed: " f),
                      emits [GetSchema] w).
Proof.
  intros Henv Hschema. unfold sync. unfold bind at 1. unfold ret at 1.
  rewrite (missing_none w Henv). cbn [length Nat.ltb Nat.leb].
  unfold bind at 1. unfold fetchCollectionSchema, bind at 1, perform at 1.
  unfold bind at 1. cbn [schema_answer emit emits]. by rewrite Hschema.
Qed.

Lemma sync_token_fault fuel w fields f :
  envReady w -> schema_answer w = Answer fields -> token_answer w = Fault f ->
  sync fuel w = Some (Throw (failure "Splash auth failed: " f),
                      emits [GetSchema; PostToken] w).
Proof.
  intros Henv Hschema Htoken. unfold sync. unfold bind at 1. unfold ret at 1.
  rewrite (missing_none w Henv). cbn [length Nat.ltb Nat.leb].
  unfold bind at 1. unfold fetchCollectionSchema, bind at 1, perform at 1.
  unfold bind at 1. cbn [schema_answer emit emits]. rewrite Hschema.
  cbn [expect]. unfold ret at 1 2.
  unfold bind at 1. unfold getSplashAccessToken, bind at 1, perform at 1.
  cbn [token_answer emit emits]. rewrite Htoken. cbn [expect]. unfold throw.
  unfold emit. by rewrite emits_emits.
Qed.

Lemma sync_events_fault fuel w fields tok f :
  envReady w -> schema_answer w = Answer fields -> token_answer w = Answer tok ->
  events_answer w = Fault f ->
  sync fuel w = Some (Throw (failure "Splash events fetch failed: " f),
                      emits (readsOf tok) w).
Proof.
  intros Henv Hschema Htoken Hevents. unfold sync. unfold bind at 1. unfold ret at 1.
  rewrite (missing_none w Henv). cbn [length Nat.ltb Nat.leb].
  unfold bind at 1. unfold fetchCollectionSchema, bind at 1, perform at 1.
  unfold bind at 1. cbn [schema_answer emit emits]. rewrite Hschema.
  cbn [expect]. unfold ret at 1 2.
  unfold bind at 1. unfold getSplashAccessToken, bind at 1, perform at 1.
  cbn [token_answer emit emits]. rewrite Htoken. cbn [expect]. unfold ret at 1.
  unfold bind at 1. unfold fetchSplashEvents, bind at 1, perform at 1.
  cbn [events_answer emit emits]. rewrite Hevents. cbn [expect]. unfold throw.
  unfold emit. by rewrite !emits_emits.
Qed.

End Failures.

(** X10. When a required variable is unset or empty the run throws
    before any request: the message lists the missing names, in the order
    of the list of required names and separated by ', ', and the world is
    left as it was. *)
Theorem missing_variables_abort {D : DateLib} fuel w :
  missingOf w <> [] ->
  sync fuel w =
    Some (Throw ("Missing required env vars: "
                 ++ String.concat ", " (missingOf w)), w)
  /\ (forall key,
        In key (missingOf w) <->
        In key required /\ (env w !! key = None \/ env w !! key = Some "")).
Proof.
  intros Hmissing. split; [by apply sync_unready|]. apply elem_of_missingOf.
Qed.

Lemma missing_variables_abort_witness :
  sync (D := noStart) 1 world250 =
    Some (Throw ("Missing required env vars: "
                 ++ String.concat ", " (missingOf world250)), world250)
  /\ (forall key,
        In key (missingOf world250) <->
        In key required
        /\ (env world250 !! key = None \/ env world250 !! key = Some "")).
Proof.
  apply (missing_variables_abort (D := noStart) 1 world250). discriminate.
Defined.

(** X11. With the variables set, a failure of the schema request, of the
    token request or of the listing of events ends the run with the
    message of that call, and no later request is made: the trace stops
    at the request that failed. *)
Theorem read_failure_aborts {D : DateLib} fuel w :
  envReady w ->
  (forall f, schema_answer w = Fault f ->
     sync fuel w = Some (Throw (failure "Webflow schema fetch failed: " f),
                         emits [GetSchema] w))
  /\ (forall fields f,
        schema_answer w = Answer fields -> token_answer w = Fault f ->
        sync fuel w = Some (Throw (failure "Splash auth failed: " f),
                            emits [GetSchema; PostToken] w))
  /\ (forall fields tok f,
        schema_answer w = Answer fields -> token_answer w = Answer tok ->
        events_answer w = Fault f ->
        sync fuel w = Some (Throw (failure "Splash events fetch failed: " f),
                            emits [GetSchema; PostToken; GetEvents tok] w)).
Proof.
  intros Henv. split; [|split].
  - intros f. by apply sync_schema_fault.
  - intros fields f. by apply sync_token_fault.
  - intros fields tok f. by apply sync_events_fault.
Qed.

Lemma read_failure_aborts_witness :
  sync (D := noStart) 1 schemaDownWorld =
    Some (Throw "Webflow schema fetch failed: 503 - Service Unavailable",
          emits [GetSchema] schemaDownWorld).
Proof.
  apply (proj1 (read_failure_aborts (D := noStart) 1 schemaDownWorld
                  ltac:(repeat constructor))
           (Status 503 "Service Unavailable")).
  reflexivity.
Defined.

(** ** The scan against any server *)

Section AnyServer.

Lemma pageRequests_app first k1 k2 :
  pageRequests first (k1 + k2) =
    (pageRequests first k1 ++ pageRequests (first + k1) k2)%list.
Proof. unfold pageRequests. by rewrite seq_app, map_app. Qed.

(** Over [k] full pages the loop only collects and moves on. *)
Lemma scanItems_skip k : forall j existingIds w fuel,
  (forall i, j <= i < j + k -> fullPage w i) ->
  scanItems (k + fuel) (N.of_nat (j * 100)) existingIds w =
    scanItems fuel (N.of_nat ((j + k) * 100))
      (foldl addSplashId existingIds (flat_map (pageItems w) (seq j k)))
      (emits (pageRequests j k) w).
Proof.
  induction k as [|k IH]; intros j existingIds w fuel Hfull.
  { cbn [Nat.add seq flat_map foldl]. unfold pageRequests. cbn [seq map].
    by rewrite emits_nil, Nat.add_0_r. }
  destruct (Hfull j ltac:(lia)) as (body & Hpage & Hlen).
  assert (pageItems w j = default [] body) as Hitems
    by (unfold pageItems; by rewrite Hpage).
  cbn [Nat.add]. rewrite scanItems_step, Hpage. cbn zeta.
  destruct (N.ltb_spec (N.of_nat (length (default [] body))) limit) as [Hlt|_];
    [unfold limit in Hlt; lia|].
  replace (N.of_nat (j * 100) + limit)%N with (N.of_nat (S j * 100))
    by (unfold limit; lia).
  rewrite IH.
  2:{ intros i Hi. destruct (Hfull i ltac:(lia)) as (b & Hb & Hl). by exists b. }
  rewrite emit_emits.
  change (pageItems (emit (GetItems (N.of_nat (j * 100)) limit) w))
    with (pageItems w).
  cbn [seq flat_map]. rewrite foldl_app, Hitems.
  by replace (S j + k) with (j + S k) by lia.
Qed.

End AnyServer.

(** X12. A page request that fails after k full pages ends the scan with
    the message 'Webflow fetch failed: ...' of that request: the
    identifiers collected from the first k pages are not returned, and
    k + 1 requests have been made. *)
Theorem scan_failure_returns_nothing fuel w k f :
  (forall i, i < k -> fullPage w i) ->
  listing w (collection w) (N.of_nat (k * 100)) limit = Fault f ->
  k < fuel ->
  fetchExistingSplashIds fuel w =
    Some (Throw (failure "Webflow fetch failed: " f),
          emits (pageRequests 0 (S k)) w).
Proof.
  intros Hfull Hfault Hfuel. unfold fetchExistingSplashIds.
  replace fuel with (k + S (fuel - S k)) by lia.
  change 0%N with (N.of_nat (0 * 100)).
  rewrite scanItems_skip by (intros i Hi; apply Hfull; lia).
  rewrite scanItems_step. cbn [collection listing emits Nat.add].
  rewrite Hfault. unfold emit. rewrite emits_emits.
  replace (S k) with (k + 1) by lia. by rewrite pageRequests_app.
Qed.

Lemma scan_failure_returns_nothing_witness :
  fetchExistingSplashIds 5 flakyWorld =
    Some (Throw (failure "Webflow fetch failed: "
                   (Status 500 "Internal Server Error")),
          emits (pageRequests 0 2) flakyWorld).
Proof.
  apply (scan_failure_returns_nothing 5 flakyWorld 1
           (Status 500 "Internal Server Error")).
  - intros [|i] Hi; [|lia]. eexists. split; [reflexivity|].
    apply (Nat.leb_le 100 100). reflexivity.
  - reflexivity.
  - lia.
Defined.

(** X13. Against a server whose every page is full the loop has no exit:
    whatever the fuel, the scan gives no result, and neither does a run
    whose three reads have answered. *)
Theorem scan_never_ends_on_full_pages {D : DateLib} fuel w fields tok evs :
  (forall i, fullPage w i) ->
  envReady w ->
  schema_answer w = Answer fields ->
  token_answer w = Answer tok ->
  events_answer w = Answer evs ->
  fetchExistingSplashIds fuel w = None /\ sync fuel w = None.
Proof.
  intros Hfull Henv Hschema Htoken Hevents.
  assert (forall w0, listing w0 = listing w -> collection w0 = collection w ->
            fetchExistingSplashIds fuel w0 = None) as Hnone.
  { intros w0 Hl Hc. unfold fetchExistingSplashIds.
    replace fuel with (fuel + 0) by lia.
    change 0%N with (N.of_nat (0 * 100)).
    rewrite scanItems_skip; [done|].
    intros i _. destruct (Hfull i) as (body & Hb & Hlen).
    exists body. by rewrite Hl, Hc. }
  split; [by apply Hnone|].
  rewrite (sync_run fuel w fields tok evs Henv Hschema Htoken Hevents).
  by rewrite Hnone.
Qed.

Lemma scan_never_ends_witness :
  fetchExistingSplashIds 1000 stuckWorld = None
  /\ sync (D := noStart) 1000 stuckWorld = None.
Proof.
  apply (scan_never_ends_on_full_pages (D := noStart) 1000 stuckWorld
           (Some (map (fun s => {| slug := s |}) schema3)) (JStr "token") []).
  - intros i. eexists. split; [reflexivity|].
    apply (Nat.leb_le 100 100). reflexivity.
  - repeat constructor.
  - reflexivity.
  - reflexivity.
  - reflexivity.
Defined.

(** X14. Whatever the server, when the first k pages it serves are full
    and the next one is short, the scan returns, after k + 1 requests, the
    truthy 'splash-id' values of the items of exactly those k + 1 pages,
    however many items each page holds. *)
Theorem scan_collects_fetched_pages fuel w k body :
  (forall i, i < k -> fullPage w i) ->
  listing w (collection w) (N.of_nat (k * 100)) limit = Answer body ->
  length (default [] body) < 100 ->
  k < fuel ->
  fetchExistingSplashIds fuel w =
    Some (Ret (idsOf (flat_map (pageItems w) (seq 0 (S k)))),
          emits (pageRequests 0 (S k)) w).
Proof.
  intros Hfull Hpage Hshort Hfuel. unfold fetchExistingSplashIds.
  assert (pageItems w k = default [] body) as Hitems
    by (unfold pageItems; by rewrite Hpage).
  replace fuel with (k + S (fuel - S k)) by lia.
  change 0%N with (N.of_nat (0 * 100)).
  rewrite scanItems_skip by (intros i Hi; apply Hfull; lia).
  rewrite scanItems_step. cbn [collection listing emits Nat.add].
  rewrite Hpage. cbn zeta.
  destruct (N.ltb_spec (N.of_nat (length (default [] body))) limit) as [_|Hge];
    [|unfold limit in Hge; lia].
  unfold emit. rewrite emits_emits.
  replace (S k) with (k + 1) by lia.
  rewrite pageRequests_app, seq_app, flat_map_app, Nat.add_0_l.
  unfold idsOf. rewrite foldl_app. cbn [seq flat_map].
  by rewrite Hitems, app_nil_r.
Qed.

Lemma scan_collects_fetched_pages_witness :
  fetchExistingSplashIds 3 world250 =
    Some (Ret (idsOf (flat_map (pageItems world250) (seq 0 3))),
          emits (pageRequests 0 3) world250).
Proof.
  apply (scan_collects_fetched_pages 3 world250 2
           (Some (replicate 50 (draftOf {[ "splash-id" := JStr "7" ]})))).
  - intros [|[|i]] Hi; [| |lia]; (eexists; split; [reflexivity|]);
      apply (Nat.leb_le 100 100); reflexivity.
  - reflexivity.
  - apply (Nat.leb_le 51 100). reflexivity.
  - lia.
Defined.

(** ** The whole run, outcome by outcome *)

Section Outcomes.
Context {D : DateLib}.

Lemma reads_only es :
  Forall (fun e => isRead e = true) es ->
  posted es = [] /\ pauses es = [] /\ slacks es = [].
Proof.
  induction 1 as [|e es He _ (IHp & IHq & IHs)]; [done|].
  unfold posted, pauses, slacks in *. destruct e; try discriminate; by cbn.
Qed.

Lemma scanItems_reads fuel : forall offset existingIds w r w1,
  scanItems fuel offset existingIds w = Some (r, w1) ->
  exists es,
    w1 = emits es w /\
    Forall (fun e => isRead e = true) es /\
    forall w0, listing w0 = listing w -> collection w0 = collection w ->
      scanItems fuel offset existingIds w0 = Some (r, emits es w0).
Proof.
  induction fuel as [|fuel IH]; intros offset existingIds w r w1 Hrun;
    [discriminate|].
  rewrite scanItems_step in Hrun.
  destruct (listing w (collection w) offset limit) as [data|f] eqn:Hpage.
  - cbn zeta in Hrun.
    destruct (N.of_nat (length (default [] data)) <? limit)%N eqn:Hlen.
    + injection Hrun as <- <-. exists [GetItems offset limit].
      split; [done|]. split; [by repeat constructor|]. intros w0 Hl Hc.
      by rewrite scanItems_step, Hl, Hc, Hpage; cbn zeta; rewrite Hlen.
    + apply IH in Hrun as (es & -> & Hreads & Hany).
      exists (GetItems offset limit :: es). rewrite emit_emits.
      split; [done|]. split; [by constructor|]. intros w0 Hl Hc.
      rewrite scanItems_step, Hl, Hc, Hpage; cbn zeta; rewrite Hlen.
      rewrite Hany by done. by rewrite emit_emits.
  - injection Hrun as <- <-. exists [GetItems offset limit].
    split; [done|]. split; [by repeat constructor|]. intros w0 Hl Hc.
    by rewrite scanItems_step, Hl, Hc, Hpage.
Qed.

Lemma notified_nothing w : notified [] w = w.
Proof. reflexivity. Qed.

(** A run that returns, in full. *)
Lemma sync_returned fuel w r w' :
  sync fuel w = Some (Ret r, w') ->
  exists fields tok evs existingIds es,
    envReady w
    /\ schema_answer w = Answer fields
    /\ token_answer w = Answer tok
    /\ events_answer w = Answer evs
    /\ fetchExistingSplashIds fuel w = Some (Ret existingIds, emits es w)
    /\ Forall (fun e => isRead e = true) es
    /\ synced r = length (acceptedOf (attempted existingIds evs) (create_answers w))
    /\ default [] (errors r)
       = failuresOf (attempted existingIds evs) (create_answers w)
    /\ (errors r = None <-> attempted existingIds evs = [])
    /\ total r = length (List.filter isPublished evs)
    /\ w' = notified (acceptedOf (attempted existingIds evs) (create_answers w))
              (written
                 (map (attemptOf (slugsOf fields))
                    (acceptedOf (attempted existingIds evs) (create_answers w)))
                 (length (attempted existingIds evs))
                 (writeTrace (attempted existingIds evs) (slugsOf fields)
                    (create_answers w))
                 (emits es (emits (readsOf tok) w))).
Proof.
  intros Hrun.
  destruct (sync_returns _ _ _ _ Hrun)
    as (Henv & fields & tok & evs & Hs & Ht & He).
  rewrite (sync_run fuel w fields tok evs Henv Hs Ht He) in Hrun.
  destruct (fetchExistingSplashIds fuel (emits (readsOf tok) w))
    as [[[existingIds|m] w4]|] eqn:Hscan; try discriminate.
  apply scanItems_reads in Hscan as (es & -> & Hreads & Hany).
  exists fields, tok, evs, existingIds, es.
  repeat (split; [done|]).
  split; [by apply Hany|]. split; [done|].
  cbn zeta in Hrun. rewrite attempted_filters in Hrun.
  change (create_answers (emits es (emits (readsOf tok) w)))
    with (create_answers w) in Hrun.
  destruct (Nat.eqb_spec (length (attempted existingIds evs)) 0) as [Hz|Hnz].
  - apply length_zero_iff_nil in Hz. injection Hrun as <- <-. rewrite Hz.
    cbn [acceptedOf failuresOf map writeTrace length synced errors total].
    rewrite written_nil, notified_nothing. by repeat split.
  - injection Hrun as <- <-. cbn [synced errors total].
    repeat split; try done. intros Hnil. by rewrite Hnil in Hnz.
Qed.

(** A run that throws has only read. *)
Lemma sync_thrown fuel w m w' :
  sync fuel w = Some (Throw m, w') ->
  exists es, w' = emits es w /\ Forall (fun e => isRead e = true) es.
Proof.
  intros Hrun.
  destruct (missingOf w) as [|key keys] eqn:Hmissing.
  2:{ rewrite sync_unready in Hrun by (by rewrite Hmissing).
      injection Hrun as _ <-. exists []. by rewrite emits_nil. }
  apply missingOf_nil in Hmissing.
  destruct (schema_answer w) as [fields|f] eqn:Hs.
  2:{ rewrite (sync_schema_fault fuel w f) in Hrun by done.
      injection Hrun as _ <-. eexists. split; [done|]. by repeat constructor. }
  destruct (token_answer w) as [tok|f] eqn:Ht.
  2:{ rewrite (sync_token_fault fuel w fields f) in Hrun by done.
      injection Hrun as _ <-. eexists. split; [done|]. by repeat constructor. }
  destruct (events_answer w) as [evs|f] eqn:He.
  2:{ rewrite (sync_events_fault fuel w fields tok f) in Hrun by done.
      injection Hrun as _ <-. eexists. split; [done|]. by repeat constructor. }
  rewrite (sync_run fuel w fields tok evs Hmissing Hs Ht He) in Hrun.
  destruct (fetchExistingSplashIds fuel (emits (readsOf tok) w))
    as [[[existingIds|m'] w4]|] eqn:Hscan; try discriminate.
  - cbn zeta in Hrun. by destruct (length _ =? 0)%nat.
  - injection Hrun as _ <-.
    apply scanItems_reads in Hscan as (es & -> & Hreads & _).
    exists (readsOf tok ++ es)%list. rewrite emits_emits. split; [done|].
    apply Forall_app. split; [by repeat constructor|done].
Qed.

End Outcomes.

(** X15. A run that throws has written nothing: the collection and the
    answers still to come are untouched, and what the run added to the
    trace are read requests only, so no create call, no pause and no
    Slack notification. *)
Theorem failed_run_writes_nothing {D : DateLib} fuel w m w' :
  sync fuel w = Some (Throw m, w') ->
  collection w' = collection w
  /\ create_answers w' = create_answers w
  /\ exists es,
       trace w' = (trace w ++ es)%list
       /\ Forall (fun e => isRead e = true) es
       /\ posted es = [] /\ pauses es = [] /\ slacks es = [].
Proof.
  intros Hrun. apply sync_thrown in Hrun as (es & -> & Hreads).
  split; [done|]. split; [done|]. exists es.
  split; [done|]. split; [done|]. by apply reads_only.
Qed.

Lemma failed_run_writes_nothing_witness :
  collection (emits [GetSchema] schemaDownWorld) = collection schemaDownWorld
  /\ create_answers (emits [GetSchema] schemaDownWorld)
     = create_answers schemaDownWorld
  /\ exists es,
       trace (emits [GetSchema] schemaDownWorld)
         = (trace schemaDownWorld ++ es)%list
       /\ Forall (fun e => isRead e = true) es
       /\ posted es = [] /\ pauses es = [] /\ slacks es = [].
Proof.
  apply (failed_run_writes_nothing (D := noStart) 1 schemaDownWorld
           "Webflow schema fetch failed: 503 - Service Unavailable"
           (emits [GetSchema] schemaDownWorld)).
  reflexivity.
Defined.

(** ** Counting what a run does *)

Section Counting.
Context {D : DateLib}.

Lemma accepted_failures_length newEvents : forall answers,
  length (acceptedOf newEvents answers) + length (failuresOf newEvents answers)
    = length newEvents.
Proof.
  induction newEvents as [|event rest IH]; intros answers; [done|].
  cbn [acceptedOf failuresOf]. specialize (IH (tail answers)).
  destruct answers as [|[body|f] answers]; cbn [tail length] in *; lia.
Qed.

Lemma pauses_app es1 es2 : pauses (es1 ++ es2) = (pauses es1 ++ pauses es2)%list.
Proof. apply omap_app. Qed.

Lemma slacks_app es1 es2 : slacks (es1 ++ es2) = (slacks es1 ++ slacks es2)%list.
Proof. apply omap_app. Qed.

Lemma pauses_writeTrace newEvents fieldSlugs : forall answers,
  pauses (writeTrace newEvents fieldSlugs answers)
    = replicate (length (acceptedOf newEvents answers)) 1100%N.
Proof.
  induction newEvents as [|event rest IH]; intros answers; [done|].
  cbn [writeTrace acceptedOf]. specialize (IH (tail answers)).
  destruct answers as [|[body|f] answers]; cbn [tail length replicate] in *;
    by rewrite <- IH.
Qed.

Lemma slacks_writeTrace newEvents fieldSlugs : forall answers,
  slacks (writeTrace newEvents fieldSlugs answers) = [].
Proof.
  induction newEvents as [|event rest IH]; intros answers; [done|].
  cbn [writeTrace]. specialize (IH (tail answers)).
  by destruct answers as [|[body|f] answers].
Qed.

Lemma trace_notified created w :
  trace (notified created w) =
    (trace w ++ if (0 <? length created)%nat && envSet w "SLACK_WEBHOOK_URL"
                then [PostSlack created] else [])%list.
Proof.
  unfold notified. destruct (_ && _); [done|]. by rewrite app_nil_r.
Qed.


Lemma accepted_length newEvents answers :
  length (acceptedOf newEvents answers) <= length newEvents.
Proof. pose proof (accepted_failures_length newEvents answers). lia. Qed.

End Counting.



(** X17. In a run that returns, the pauses are as many as the records
    created, each of 1100 ms: a refused create call adds none. *)
Theorem one_pause_per_created_record {D : DateLib} fuel w r w' :
  sync fuel w = Some (Ret r, w') ->
  pauses (trace w') = (pauses (trace w) ++ replicate (synced r) 1100%N)%list.
Proof.
  intros Hrun.
  destruct (sync_returned _ _ _ _ Hrun)
    as (fields & tok & evs & ids & es & _ & _ & _ & _ & _ & Hreads
        & Hsynced & _ & _ & _ & ->).
  destruct (reads_only es Hreads) as (_ & Hpauses & _).
  rewrite trace_notified, Hsynced. cbn [written emits trace].
  rewrite !pauses_app, Hpauses, pauses_writeTrace.
  change (pauses (readsOf tok)) with (@nil N).
  destruct (_ && _); cbn [pauses omap list_omap]; by rewrite !app_nil_r.
Qed.

Lemma one_pause_per_created_record_witness :
  pauses (trace firstRefusedAfter)
    = (pauses (trace firstRefusedWorld) ++ replicate 1 1100%N)%list.
Proof.
  apply (one_pause_per_created_record (D := noStart) 1 firstRefusedWorld
           {| synced := 1;
              errors := Some [(JNum 1,
                               "Webflow create failed: 429 - Too Many Requests")];
              total := 2 |}
           firstRefusedAfter).
  reflexivity.
Defined.

(** ** The trace of a run *)

(** X18. A run that returns does, in this order and nothing else: the
    schema request, the token request, the listing of events, the page
    requests of the scan, then for each new record its create call
    followed by the pause when the call was accepted, and last, when at
    least one record was created and a Slack webhook is configured, one
    Slack notification that carries the created records in source order.
    No create call comes before the scan has ended. *)
Theorem run_trace {D : DateLib} fuel w r w' fields tok evs existingIds es :
  sync fuel w = Some (Ret r, w') ->
  schema_answer w = Answer fields ->
  token_answer w = Answer tok ->
  events_answer w = Answer evs ->
  fetchExistingSplashIds fuel w = Some (Ret existingIds, emits es w) ->
  trace w' =
    (trace w ++ [GetSchema; PostToken; GetEvents tok] ++ es
       ++ writeTrace (attempted existingIds evs) (slugsOf fields)
            (create_answers w)
       ++ (if (0 <? synced r)%nat && envSet w "SLACK_WEBHOOK_URL"
           then [PostSlack (acceptedOf (attempted existingIds evs)
                              (create_answers w))]
           else []))%list.
Proof.
  intros Hrun Hschema Htoken Hevents Hscan.
  destruct (sync_returned _ _ _ _ Hrun)
    as (fields' & tok' & evs' & ids' & es' & _ & Hs & Ht & He & Hscan' & _
        & Hsynced & _ & _ & _ & ->).
  rewrite Hschema in Hs. injection Hs as <-.
  rewrite Htoken in Ht. injection Ht as <-.
  rewrite Hevents in He. injection He as <-.
  rewrite Hscan in Hscan'. injection Hscan' as <- Hes.
  apply app_inv_head in Hes as <-.
  rewrite trace_notified, Hsynced. cbn [written emits trace].
  change (envSet (written _ _ _ _) "SLACK_WEBHOOK_URL")
    with (envSet w "SLACK_WEBHOOK_URL").
  unfold readsOf. by rewrite <- !app_assoc.
Qed.

Lemma run_trace_witness :
  trace slackAfter =
    (trace slackWorld ++ [GetSchema; PostToken; GetEvents (JStr "token")]
       ++ [GetItems 0 100]
       ++ writeTrace (D := noStart)
            (attempted ∅ [event1; event2; unpublishedEvent; event3])
            (slugsOf (Some (map (fun s => {| slug := s |}) schema3)))
            (create_answers slackWorld)
       ++ (if (0 <? synced {| synced := 2;
                              errors := Some [(JNum 2, "fetch failed")];
                              total := 3 |})%nat
              && envSet slackWorld "SLACK_WEBHOOK_URL"
           then [PostSlack (acceptedOf
                              (attempted ∅ [event1; event2; unpublishedEvent; event3])
                              (create_answers slackWorld))]
           else []))%list.
Proof.
  apply (run_trace (D := noStart) 1 slackWorld
           {| synced := 2; errors := Some [(JNum 2, "fetch failed")]; total := 3 |}
           slackAfter
           (Some (map (fun s => {| slug := s |}) schema3)) (JStr "token")
           [event1; event2; unpublishedEvent; event3] ∅ [GetItems 0 100]);
    reflexivity.
Defined.

Section Drafts.
Context {D : DateLib}.

Lemma attemptOf_draft fieldSlugs event : isDraftItem (attemptOf fieldSlugs event).
Proof.
  unfold isDraftItem, attemptOf, draftOf. cbn [isDraft isArchived fieldData].
  split; [done|]. split; [done|]. eexists. split; [done|].
  rewrite mapSplashToWebflow_name, mapSplashToWebflow_slug. eauto.
Qed.

Lemma mapSplashToWebflow_no_schema splashEvent (fieldSlugs : gset string) :
  fieldSlugs = ∅ ->
  dom (mapSplashToWebflow splashEvent fieldSlugs) = {[ "name"; "slug" ]}.
Proof.
  intros ->. apply set_eq. intros key. split.
  - intros Hkey. apply mapSplashToWebflow_dom in Hkey. set_solver.
  - intros [->%elem_of_singleton | ->%elem_of_singleton]%elem_of_union;
      apply elem_of_dom;
      rewrite ?mapSplashToWebflow_name, ?mapSplashToWebflow_slug; eauto.
Qed.

End Drafts.

(** X19. Whatever the outcome of a run, the body of each of its create
    calls is marked as a draft and as not archived, and its field data
    has the keys 'name' and 'slug'. *)
Theorem every_create_is_a_draft {D : DateLib} fuel w o w' :
  sync fuel w = Some (o, w') ->
  exists items,
    posted (trace w') = (posted (trace w) ++ items)%list
    /\ Forall isDraftItem items.
Proof.
  intros Hrun. destruct o as [r|m].
  - destruct (sync_returned _ _ _ _ Hrun)
      as (fields & tok & evs & ids & es & _ & _ & _ & _ & _ & Hreads
          & _ & _ & _ & _ & ->).
    destruct (reads_only es Hreads) as (Hposted & _).
    exists (map (attemptOf (slugsOf fields)) (attempted ids evs)). split.
    + rewrite posted_notified. cbn [written emits trace].
      rewrite !posted_app, Hposted, posted_writeTrace. cbn.
      by rewrite !app_nil_r.
    + apply Forall_forall. intros item (event & -> & _)%list_elem_of_fmap.
      apply attemptOf_draft.
  - apply sync_thrown in Hrun as (es & -> & Hreads).
    destruct (reads_only es Hreads) as (Hposted & _).
    exists []. split; [|constructor]. cbn [emits trace].
    by rewrite posted_app, Hposted.
Qed.

Lemma every_create_is_a_draft_witness :
  exists items,
    posted (trace scenarioAfter) = (posted (trace scenarioWorld) ++ items)%list
    /\ Forall isDraftItem items.
Proof.
  apply (every_create_is_a_draft (D := noStart) 1 scenarioWorld
           (Ret {| synced := 2; errors := Some []; total := 3 |}) scenarioAfter).
  reflexivity.
Defined.

(** X20. In a run that returns, the keys of every create call are
    'name', 'slug' and keys of the schema that was fetched; when the
    schema answer has no 'fields' property, or an empty one, every create
    call carries 'name' and 'slug' and nothing else. *)
Theorem run_keys_follow_schema {D : DateLib} fuel w r w' fields :
  sync fuel w = Some (Ret r, w') ->
  schema_answer w = Answer fields ->
  exists items,
    posted (trace w') = (posted (trace w) ++ items)%list
    /\ Forall (fun item => exists fd,
                 fieldData item = Some fd
                 /\ dom fd ⊆ {[ "name"; "slug" ]} ∪ slugsOf fields
                 /\ (default [] fields = [] -> dom fd = {[ "name"; "slug" ]}))
         items.
Proof.
  intros Hrun Hschema.
  destruct (sync_returned _ _ _ _ Hrun)
    as (fields' & tok & evs & ids & es & _ & Hs & _ & _ & _ & Hreads
        & _ & _ & _ & _ & ->).
  rewrite Hschema in Hs. injection Hs as <-.
  destruct (reads_only es Hreads) as (Hposted & _).
  exists (map (attemptOf (slugsOf fields)) (attempted ids evs)). split.
  - rewrite posted_notified. cbn [written emits trace].
    rewrite !posted_app, Hposted, posted_writeTrace. cbn.
    by rewrite !app_nil_r.
  - apply Forall_forall. intros item (event & -> & _)%list_elem_of_fmap.
    eexists. split; [reflexivity|]. split; [apply mapSplashToWebflow_dom|].
    intros Hnone. apply mapSplashToWebflow_no_schema.
    unfold slugsOf. by rewrite Hnone.
Qed.

Lemma run_keys_follow_schema_witness :
  exists items,
    posted (trace noFieldsAfter) = (posted (trace noFieldsWorld) ++ items)%list
    /\ Forall (fun item => exists fd,
                 fieldData item = Some fd
                 /\ dom fd ⊆ {[ "name"; "slug" ]} ∪ slugsOf None
                 /\ (default [] (@None (list Field)) = []
                     -> dom fd = {[ "name"; "slug" ]}))
         items.
Proof.
  apply (run_keys_follow_schema (D := noStart) 1 noFieldsWorld
           {| synced := 1; errors := Some []; total := 1 |} noFieldsAfter None);
    reflexivity.
Defined.

(** ** The next run *)

Section NextRun.
Context {D : DateLib}.

Lemma isNew_app items1 items2 event :
  isNew (idsOf (items1 ++ items2)) event =
    isNew (idsOf items1) event && isNew (idsOf items2) event.
Proof.
  unfold isNew. rewrite <- negb_orb. f_equal.
  apply eq_true_iff_eq. rewrite orb_true_iff, !bool_decide_eq_true.
  apply idsOf_app.
Qed.

Lemma attempted_app items1 items2 evs :
  attempted (idsOf (items1 ++ items2)) evs =
    List.filter (isNew (idsOf items2)) (attempted (idsOf items1) evs).
Proof.
  unfold attempted. rewrite filter_filter. apply List.filter_ext.
  intros event. fold (isNew (idsOf (items1 ++ items2)) event).
  fold (isNew (idsOf items1) event). rewrite isNew_app. by rewrite andb_assoc.
Qed.


Lemma isNew_uncreated fieldSlugs made event :
  "splash-id" ∉ fieldSlugs ->
  isNew (idsOf (map (attemptOf fieldSlugs) made)) event = true.
Proof.
  intros Hfield. apply not_false_iff_true. rewrite isNew_false, elem_of_idsOf.
  intros (item & (other & -> & Hin)%list_elem_of_fmap & Hid & Ht).
  unfold splashIdOf, attemptOf, draftOf in Hid.
  cbn [fieldData mbind option_bind] in Hid.
  rewrite mapSplashToWebflow_splash_id, bool_decide_eq_false_2 in Hid by done.
  cbn in Hid. by subst.
Qed.



End NextRun.



Lemma all_stay_new {D : DateLib} fieldSlugs made l :
  "splash-id" ∉ fieldSlugs ->
  List.filter (isNew (idsOf (map (attemptOf fieldSlugs) made))) l = l.
Proof.
  intros Hfield. induction l as [|e l IH]; [done|].
  cbn [List.filter]. by rewrite isNew_uncreated, IH.
Qed.

(** X22. Without the field 'splash-id' in the schema nothing that a run
    creates is ever recognised: a second run on the same source and on
    the collection as the first run left it attempts every record that
    the first run attempted, the created ones included. *)
Theorem without_id_field_all_is_attempted_again {D : DateLib}
    fuel1 fuel2 w r1 w1 fields evs w2 fields2 r2 w2' :
  sync fuel1 w = Some (Ret r1, w1) ->
  listing w = pagedListing ->
  schema_answer w = Answer fields ->
  "splash-id" ∉ slugsOf fields ->
  events_answer w = Answer evs ->
  events_answer w2 = Answer evs ->
  schema_answer w2 = Answer fields2 ->
  collection w2 = collection w1 ->
  listing w2 = pagedListing ->
  sync fuel2 w2 = Some (Ret r2, w2') ->
  posted (trace w2') =
    (posted (trace w2)
       ++ map (attemptOf (slugsOf fields2))
            (attempted (idsOf (collection w)) evs))%list.
Proof.
  intros Hrun1 Hpaged Hschema Hfield Hevents Hevents2 Hschema2 Hcoll Hpaged2 Hrun2.
  destruct (sync_collection _ _ _ _ _ _ Hrun1 Hpaged Hschema Hevents)
    as (Hc1 & _).
  destruct (sync_collection _ _ _ _ _ _ Hrun2 Hpaged2 Hschema2 Hevents2)
    as (_ & Hp2 & _).
  rewrite Hp2, Hcoll, Hc1, attempted_app. by rewrite all_stay_new.
Qed.

Lemma without_id_field_witness :
  posted (trace noIdFieldAfter2) =
    (posted (trace noIdFieldAfter)
       ++ map (attemptOf (D := noStart)
                 (slugsOf (Some (map (fun s => {| slug := s |}) ["name"; "slug"]))))
            (attempted (idsOf (collection noIdFieldWorld)) [event1]))%list.
Proof.
  apply (without_id_field_all_is_attempted_again (D := noStart) 1 1
           noIdFieldWorld
           {| synced := 1; errors := Some []; total := 1 |} noIdFieldAfter
           (Some (map (fun s => {| slug := s |}) ["name"; "slug"]))
           [event1]
           noIdFieldAfter
           (Some (map (fun s => {| slug := s |}) ["name"; "slug"]))
           {| synced := 1; errors := Some []; total := 1 |} noIdFieldAfter2).
  - reflexivity.
  - reflexivity.
  - reflexivity.
  - apply (bool_decide_unpack _). exact I.
  - reflexivity.
  - reflexivity.
  - reflexivity.
  - reflexivity.
  - reflexivity.
  - reflexivity.
Defined.

(* ------------------------------------------------------------------ *)
(** ** The earlier revision of the mapping *)

Section EarlierRevision.
Context {D : DateLib}.

Lemma assignFirst_insert aliases fieldSlugs v (fd : gmap string jsval) k x :
  k ∉ aliases ->
  assignFirst aliases fieldSlugs v (<[k := x]> fd)
    = <[k := x]> (assignFirst aliases fieldSlugs v fd).
Proof.
  induction aliases as [|a rest IH]; intros Hk; [done|].
  apply not_elem_of_cons in Hk as [Hka Hk]. cbn [assignFirst].
  destruct (_ && _); [|by apply IH].
  by apply insert_insert_ne.
Qed.

(** Two loops over disjoint alias lists can be run in either order. *)
Lemma assignFirst_comm aliases1 aliases2 fieldSlugs v1 v2 (fd : gmap string jsval) :
  (forall a, a ∈ aliases1 -> a ∉ aliases2) ->
  assignFirst aliases1 fieldSlugs v1 (assignFirst aliases2 fieldSlugs v2 fd)
    = assignFirst aliases2 fieldSlugs v2 (assignFirst aliases1 fieldSlugs v1 fd).
Proof.
  intros Hdisj. induction aliases1 as [|a rest IH]; [done|].
  cbn [assignFirst]. destruct (_ && _).
  - rewrite assignFirst_insert; [done|]. apply Hdisj. by left.
  - apply IH. intros b Hb. apply Hdisj. by right.
Qed.

(** X23. The mapping of the earlier revision (part_002) is the mapping
    of the current one followed by the loop over the description
    aliases: the two agree on every key that is not a description alias,
    and they give the same object when [description_text] is absent or
    empty, or when the schema has none of the three aliases. *)
Theorem earlier_revision_adds_description (splashEvent : DescribedEvent)
    (fieldSlugs : gset string) :
  Earlier.mapSplashToWebflow splashEvent fieldSlugs
    = assignFirst Earlier.descSlugs fieldSlugs
        (or_default (description_text splashEvent) "")
        (mapSplashToWebflow (properties splashEvent) fieldSlugs)
  /\ (forall key, key ∉ Earlier.descSlugs ->
        Earlier.mapSplashToWebflow splashEvent fieldSlugs !! key
          = mapSplashToWebflow (properties splashEvent) fieldSlugs !! key)
  /\ (nonempty (or_default (description_text splashEvent) "") = false
      \/ firstIn Earlier.descSlugs fieldSlugs = None ->
      Earlier.mapSplashToWebflow splashEvent fieldSlugs
        = mapSplashToWebflow (properties splashEvent) fieldSlugs).
Proof.
  assert (Heq : Earlier.mapSplashToWebflow splashEvent fieldSlugs
    = assignFirst Earlier.descSlugs fieldSlugs
        (or_default (description_text splashEvent) "")
        (mapSplashToWebflow (properties splashEvent) fieldSlugs)).
  { unfold Earlier.mapSplashToWebflow, mapSplashToWebflow.
    destruct (eventDateTime (properties splashEvent)) as [eventDate eventTime].
    apply assignFirst_comm.
    unfold typeSlugs, Earlier.descSlugs. set_solver. }
  split; [exact Heq|]. split.
  - intros key Hkey. rewrite Heq. by apply assignFirst_other.
  - intros [Hd | Hnone]; rewrite Heq.
    + by apply assignFirst_empty.
    + revert Hnone. generalize (mapSplashToWebflow (properties splashEvent) fieldSlugs).
      generalize Earlier.descSlugs as aliases.
      induction aliases as [|a rest IH]; intros fd; [done|].
      cbn [firstIn assignFirst].
      destruct (bool_decide (a ∈ fieldSlugs)); [done|]. apply IH.
Qed.

(** X24. Which description alias the earlier revision writes: of
    'description', 'description-2' and 'event-description' only the first
    one that the schema has, and only for a non-empty
    [description_text]. *)
Theorem earlier_revision_description_alias (splashEvent : DescribedEvent)
    (fieldSlugs : gset string) (key : string) :
  key ∈ Earlier.descSlugs ->
  Earlier.mapSplashToWebflow splashEvent fieldSlugs !! key
    = if bool_decide (firstIn Earlier.descSlugs fieldSlugs = Some key)
         && nonempty (or_default (description_text splashEvent) "")
      then Some (JStr (or_default (description_text splashEvent) "")) else None.
Proof.
  intros Hkey. unfold Earlier.mapSplashToWebflow.
  destruct (eventDateTime (properties splashEvent)) as [eventDate eventTime].
  rewrite (assignFirst_other typeSlugs) by (alias_cases Hkey; outside_aliases).
  apply assignFirst_lookup; [|done|].
  - unfold Earlier.descSlugs.
    repeat (apply NoDup_cons; split; [set_solver|]); apply NoDup_nil_2.
  - intros a Ha. alias_cases Ha; before_aliases.
Qed.

End EarlierRevision.

Lemma earlier_revision_description_alias_witness :
  Earlier.mapSplashToWebflow (D := noStart) describedEvent describedSchema
    !! "description-2" = Some (JStr "Doors open at six.")
  /\ Earlier.mapSplashToWebflow (D := noStart) describedEvent describedSchema
       !! "event-description" = None.
Proof.
  split.
  - apply (earlier_revision_description_alias (D := noStart) describedEvent
             describedSchema "description-2").
    apply (bool_decide_unpack _). exact I.
  - apply (earlier_revision_description_alias (D := noStart) describedEvent
             describedSchema "event-description").
    apply (bool_decide_unpack _). exact I.
Defined.
